(** * Context-aware interruption handler

    A shallow embedding of
    [livekit/agents/voice/interruption_handler_mrinank.py]: the configuration
    dataclass, the handler object with its derived filler set, the tokenizer
    built on [re.findall(r'\b\w+\b', text.lower())], the ignore/respond
    decision and the reason reporter.

    Python text is a sequence of Unicode code points.  The interpreter's
    character tables (case mapping, [\w], whitespace) are not part of the
    repository; they are a parameter of the development, and one concrete
    table, exact on the Latin-1 block, is given for evaluation. *)

From Stdlib Require Import NArith Ascii String DecimalString.
From stdpp Require Import base gmap sets list.

Local Open Scope N_scope.

(** ** Text *)

(** A code point, and a Python [str]. *)
Definition cp := N.
Definition str := list cp.

(** An ASCII literal as a [str]. *)
Definition lit (s : string) : str := map N_of_ascii (list_ascii_of_string s).

(** A transcript argument as the handler can receive it at run time: the
    annotation says [str], the guard [not transcript] also accepts [None]. *)
Inductive pyval :=
  | PyNone
  | PyStr (s : str).

(** Python truthiness of such a value: [None] and the empty text are falsy. *)
Definition truthy (v : pyval) : bool :=
  match v with
  | PyNone => false
  | PyStr [] => false
  | PyStr (_ :: _) => true
  end.

(** ** Character tables of the interpreter *)

(** [lower_at before c after] is what [str.lower] writes for the character
    [c] standing between [before] and [after] (the context matters for the
    capital sigma only); [upper_of c] is what [str.upper] writes for [c];
    [is_word] is the class [\w] of [re] on text patterns; [is_space] is the
    class removed by [str.strip()]. *)
Record unicode_db := {
  lower_at : str → cp → str → str;
  upper_of : cp → str;
  is_word : cp → bool;
  is_space : cp → bool;
}.

Section Text.
Context (U : unicode_db).

Fixpoint lower_from (before : str) (s : str) : str :=
  match s with
  | [] => []
  | c :: after => lower_at U before c after ++ lower_from (before ++ [c]) after
  end.

(** [text.lower()] *)
Definition str_lower (s : str) : str := lower_from [] s.

(** [text.upper()] *)
Definition str_upper (s : str) : str := flat_map (upper_of U) s.

Fixpoint lstrip (s : str) : str :=
  match s with
  | [] => []
  | c :: s' => if is_space U c then lstrip s' else s
  end.

(** [text.strip()] *)
Definition str_strip (s : str) : str := rev (lstrip (rev (lstrip s))).
End Text.

(** ** The pattern [\b\w+\b] *)

Section Regex.
Variable word : cp → bool.

(** Whether the position next to a character (or to an end of the text)
    counts as inside a word. *)
Definition word_at (o : option cp) : bool := from_option word false o.

(** [\b]: exactly one side of the position is a word character. *)
Definition boundary (prev next : option cp) : bool :=
  xorb (word_at prev) (word_at next).

(** Greedy [\w+]: the number of leading word characters. *)
Fixpoint word_run (s : str) : nat :=
  match s with
  | [] => 0%nat
  | c :: s' => if word c then S (word_run s') else 0%nat
  end.

(** Backtracking of [\w+] from [k] characters down to one, the closing
    [\b] being tested after each candidate. *)
Fixpoint try_lengths (k : nat) (s : str) : option (str * str) :=
  match k with
  | O => None
  | S k' =>
      if boundary (s !! k') (s !! k) then Some (take k s, drop k s)
      else try_lengths k' s
  end.

(** A match of the whole pattern at the start of [s], the character before
    it being [prev]: the matched text and what follows it. *)
Definition match_here (prev : option cp) (s : str) : option (str * str) :=
  if boundary prev (head s) then try_lengths (word_run s) s else None.

(** The scan of [re.findall]: leftmost match, then on from its end; where
    nothing matches, on from the next character. *)
Fixpoint findall_from (fuel : nat) (prev : option cp) (s : str) : list str :=
  match fuel with
  | O => []
  | S fuel' =>
      match s with
      | [] => []
      | c :: s' =>
          match match_here prev s with
          | Some (w, rest) => w :: findall_from fuel' (last w) rest
          | None => findall_from fuel' (Some c) s'
          end
      end
  end.

(** [re.findall(r'\b\w+\b', s)]; every step consumes a character, so the
    length of the text is fuel enough. *)
Definition findall (s : str) : list str := findall_from (length s) None s.

(** A text stops a run of class [v] when it is over or goes on with a
    character of the other class. *)
Definition stops (v : bool) (s : str) : Prop :=
  match s with
  | [] => True
  | c :: _ => word c = negb v
  end.

(** The tokens as the specification words them: the maximal runs of word
    characters, in order, the other characters being separators. *)
Inductive maximal_runs : str → list str → Prop :=
  | runs_done sep :
      Forall (λ c, word c = false) sep →
      maximal_runs sep []
  | runs_word sep w rest ws :
      Forall (λ c, word c = false) sep →
      w ≠ [] →
      Forall (λ c, word c = true) w →
      word_at (head rest) = false →
      maximal_runs rest ws →
      maximal_runs (sep ++ w ++ rest) (w :: ws).
End Regex.

(** ** Logging and failure *)

(** The one exception the module can raise: a method looked up on [None]. *)
Inductive exn :=
  | AttributeError.

(** What the module hands to [logger.info], one constructor per message. *)
Inductive record :=
  | msg_initialized (fillers : gset str)
  | msg_interrupt_check (transcript : pyval) (agent_speaking : bool)
      (words : list str) (agent_state : option str)
  | msg_non_filler (words : list str)
  | msg_ignore
  | msg_respond
  | msg_updated (fillers : gset str).

(** A computation that returns or raises, and logs on the way. *)
Record run (A : Type) := Run {
  outcome : exn + A;
  logged : list record;
}.
Arguments Run {A} _ _.
Arguments outcome {A} _.
Arguments logged {A} _.

Definition raise {A} (e : exn) : run A := Run (inl e) [].

Definition info (r : record) : run unit := Run (inr tt) [r].

(** [if flag: logger.info(...)] *)
Definition info_when (flag : bool) (r : record) : run unit :=
  if flag then info r else Run (inr tt) [].

#[global] Instance run_ret : MRet run := λ A a, Run (inr a) [].

#[global] Instance run_bind : MBind run := λ A B k m,
  match outcome m with
  | inl e => Run (inl e) (logged m)
  | inr a => Run (outcome (k a)) (logged m ++ logged (k a))
  end.

(** ** Configuration and handler *)

Record InterruptionHandlerConfig := {
  ignore_list : list str;
  enabled : bool;
  min_interrupt_words : Z;
  verbose_logging : bool;
}.

(** The dataclass defaults. *)
Definition default_config : InterruptionHandlerConfig :=
  {| ignore_list := map lit ["yeah"; "ok"; "okay"; "hmm"; "right"; "uh-huh";
                             "huh"; "uh"]%string;
     enabled := true;
     min_interrupt_words := 1;
     verbose_logging := false |}.

(** [InterruptionHandlerConfig(enabled=False)] *)
Definition disabled_config : InterruptionHandlerConfig :=
  {| ignore_list := ignore_list default_config;
     enabled := false;
     min_interrupt_words := 1;
     verbose_logging := false |}.

Definition with_ignore_list (c : InterruptionHandlerConfig) (l : list str) :
  InterruptionHandlerConfig :=
  {| ignore_list := l;
     enabled := enabled c;
     min_interrupt_words := min_interrupt_words c;
     verbose_logging := verbose_logging c |}.

(** A handler object, with the present state of the configuration object it
    refers to.  The methods below read and assign the two attributes; which
    configuration object a handler refers to, and which other handlers refer
    to the same one, is kept by the heap further down. *)
Record InterruptionHandler := {
  _config : InterruptionHandlerConfig;
  _ignore_list_lower : gset str;
}.

(** The four reason codes of [get_interrupt_reason]. *)
Inductive reason :=
  | empty_transcript
  | contains_semantic_content
  | passive_acknowledgement_ignored_agent_speaking
  | passive_acknowledgement_agent_silent.

Section Handler.
Context (U : unicode_db).

(** [{word.lower().strip() for word in ignore_list}] *)
Definition normalized (l : list str) : gset str :=
  list_to_set (map (λ word, str_strip U (str_lower U word)) l).

Definition _normalize_ignore_list (self : InterruptionHandler) :
  run InterruptionHandler :=
  let self := {| _config := _config self;
                 _ignore_list_lower := normalized (ignore_list (_config self)) |} in
  info_when (verbose_logging (_config self))
    (msg_initialized (_ignore_list_lower self));;
  mret self.

(** [__init__]: [config or InterruptionHandlerConfig()], then the first
    normalization; the derived set does not exist before it. *)
Definition init (config : option InterruptionHandlerConfig) :
  run InterruptionHandler :=
  _normalize_ignore_list
    {| _config := default default_config config; _ignore_list_lower := ∅ |}.

(** The object that [InterruptionHandler(config)] evaluates to. *)
Definition constructed (config : option InterruptionHandlerConfig) :
  InterruptionHandler :=
  {| _config := default default_config config;
     _ignore_list_lower :=
       normalized (ignore_list (default default_config config)) |}.

(** [re.findall(r'\b\w+\b', text.lower())]; [None] has no [lower]. *)
Definition _extract_words (text : pyval) : run (list str) :=
  match text with
  | PyNone => raise AttributeError
  | PyStr s => mret (findall (is_word U) (str_lower U s))
  end.

(** The loop with its early return. *)
Fixpoint _has_non_filler_words (self : InterruptionHandler) (words : list str) :
  bool :=
  match words with
  | [] => false
  | word :: words' =>
      if bool_decide (word ∉ _ignore_list_lower self) then true
      else _has_non_filler_words self words'
  end.

Definition should_ignore_interrupt (self : InterruptionHandler)
    (transcript : pyval) (agent_is_speaking : bool)
    (current_agent_state : option str) : run bool :=
  let verbose := verbose_logging (_config self) in
  if negb (enabled (_config self)) || negb (truthy transcript) then mret false
  else
    words ← _extract_words transcript;
    info_when verbose
      (msg_interrupt_check transcript agent_is_speaking words
         current_agent_state);;
    if _has_non_filler_words self words then
      info_when verbose (msg_non_filler words);; mret false
    else
      match words with
      | [] => mret false
      | _ :: _ =>
          if agent_is_speaking then info_when verbose msg_ignore;; mret true
          else info_when verbose msg_respond;; mret false
      end.

Definition get_interrupt_reason (self : InterruptionHandler)
    (transcript : pyval) (agent_is_speaking : bool) : run reason :=
  words ← _extract_words transcript;
  match words with
  | [] => mret empty_transcript
  | _ :: _ =>
      if _has_non_filler_words self words then mret contains_semantic_content
      else if agent_is_speaking then
        mret passive_acknowledgement_ignored_agent_speaking
      else mret passive_acknowledgement_agent_silent
  end.

(** The verdict as one boolean expression over the tokens. *)
Definition verdict_of (self : InterruptionHandler) (words : list str)
    (agent_is_speaking : bool) : bool :=
  negb (_has_non_filler_words self words)
  && negb (bool_decide (words = [])) && agent_is_speaking.

(** [update_ignore_list] as the handler called sees it: the new list in its
    configuration, then the normalization.  That the assignment goes to a
    configuration object other handlers may refer to is
    [update_ignore_list_on] below. *)
Definition update_ignore_list (self : InterruptionHandler)
    (new_ignore_list : list str) : run InterruptionHandler :=
  let self := {| _config := with_ignore_list (_config self) new_ignore_list;
                 _ignore_list_lower := _ignore_list_lower self |} in
  self ← _normalize_ignore_list self;
  info (msg_updated (_ignore_list_lower self));;
  mret self.
End Handler.

(** ** A session with one handler *)

(** The public operations of a handler, and what each hands back. *)
Inductive call :=
  | Classify (transcript : pyval) (agent_is_speaking : bool)
      (current_agent_state : option str)
  | Explain (transcript : pyval) (agent_is_speaking : bool)
  | Replace (new_ignore_list : list str).

Inductive answer :=
  | Verdict (v : exn + bool)
  | Reason (r : exn + reason)
  | Replaced
  | Failed (e : exn).

Section Session.
Context (U : unicode_db).

(** One call on the handler object: the object afterwards and the answer.
    Only [update_ignore_list] assigns to the object. *)
Definition perform (self : InterruptionHandler) (c : call) :
  InterruptionHandler * answer :=
  match c with
  | Classify t s a =>
      (self, Verdict (outcome (should_ignore_interrupt U self t s a)))
  | Explain t s => (self, Reason (outcome (get_interrupt_reason U self t s)))
  | Replace l =>
      match outcome (update_ignore_list U self l) with
      | inr self' => (self', Replaced)
      | inl e => (self, Failed e)
      end
  end.

Fixpoint session (self : InterruptionHandler) (cs : list call) :
  InterruptionHandler * list answer :=
  match cs with
  | [] => (self, [])
  | c :: cs' =>
      let (self', a) := perform self c in
      let (self'', answers) := session self' cs' in
      (self'', a :: answers)
  end.

(** The derived set is the normalization of the configured list. *)
Definition consistent (self : InterruptionHandler) : Prop :=
  _ignore_list_lower self = normalized U (ignore_list (_config self)).
End Session.

(** ** The tables on ASCII and on Latin-1 *)

Definition in_range (lo hi c : cp) : bool := (lo <=? c) && (c <=? hi).

Definition ascii_lower (c : cp) : cp := if in_range 65 90 c then c + 32 else c.

Definition ascii_upper (c : cp) : cp := if in_range 97 122 c then c - 32 else c.

(** Digits, letters and the underscore. *)
Definition ascii_word (c : cp) : bool :=
  in_range 48 57 c || in_range 65 90 c || (c =? 95) || in_range 97 122 c.

(** Tab to carriage return, the four separators, the space. *)
Definition ascii_space (c : cp) : bool := in_range 9 13 c || in_range 28 32 c.

Definition is_ascii (c : cp) : bool := c <? 128.

Definition ascii_text (s : str) : bool := forallb is_ascii s.

(** Text of ASCII characters that are no word characters: blanks and
    punctuation other than the underscore. *)
Definition ascii_separators (s : str) : bool :=
  forallb (λ c, is_ascii c && negb (ascii_word c)) s.

(** What every table of the interpreter does below 128. *)
Record ascii_faithful (U : unicode_db) : Prop := {
  lower_ascii : ∀ before c after,
    is_ascii c = true → lower_at U before c after = [ascii_lower c];
  upper_ascii : ∀ c, is_ascii c = true → upper_of U c = [ascii_upper c];
  word_ascii : ∀ c, is_ascii c = true → is_word U c = ascii_word c;
  space_ascii : ∀ c, is_ascii c = true → is_space U c = ascii_space c;
}.

(** What every table of the interpreter does with separators: lower-casing
    makes no word character out of a character that is none, and a
    whitespace character is no word character. *)
Record separators_faithful (U : unicode_db) : Prop := {
  lower_separator : ∀ before c after,
    is_word U c = false →
    Forall (λ d, is_word U d = false) (lower_at U before c after);
  space_separator : ∀ c, is_space U c = true → is_word U c = false;
}.

(** The interpreter's tables on the code points below 256 and on the three
    images of those under the case maps (376, 924, 956); any other code
    point is taken as a caseless separator, which the interpreter does not
    promise. *)
Definition latin1_lower (c : cp) : cp :=
  if is_ascii c then ascii_lower c
  else if in_range 192 222 c && negb (c =? 215) then c + 32
  else if c =? 376 then 255
  else if c =? 924 then 956
  else c.

Definition latin1_upper (c : cp) : str :=
  if is_ascii c then [ascii_upper c]
  else if c =? 181 then [924]
  else if c =? 223 then [83; 83]
  else if c =? 255 then [376]
  else if in_range 224 254 c && negb (c =? 247) then [c - 32]
  else if c =? 956 then [924]
  else [c].

Definition latin1_word (c : cp) : bool :=
  if is_ascii c then ascii_word c
  else (c =? 170) || (c =? 178) || (c =? 179) || (c =? 181) || (c =? 185)
       || (c =? 186) || in_range 188 190 c || in_range 192 214 c
       || in_range 216 246 c || in_range 248 255 c
       || (c =? 376) || (c =? 924) || (c =? 956).

Definition latin1_space (c : cp) : bool :=
  if is_ascii c then ascii_space c else (c =? 133) || (c =? 160).

Definition latin1 : unicode_db :=
  {| lower_at := λ _ c _, [latin1_lower c];
     upper_of := latin1_upper;
     is_word := latin1_word;
     is_space := latin1_space |}.

(** ** The module-level default handler *)

(** Handler objects live in a store and are passed around by reference; the
    module variable [_default_handler] holds [None] or such a reference. *)
Record module_state := {
  objects : gmap positive InterruptionHandler;
  _default_handler : option positive;
}.

(** The state in which every reference the module holds is to a live
    object, as in any run of the interpreter. *)
Definition valid (m : module_state) : Prop :=
  ∀ r, _default_handler m = Some r → is_Some (objects m !! r).

Section DefaultHandler.
Context (U : unicode_db).

(** [InterruptionHandler()] evaluated in a store: the new object gets an
    address no live object has. *)
Definition new_handler (m : module_state)
    (config : option InterruptionHandlerConfig) : run (positive * module_state) :=
  self ← init U config;
  let r := fresh (dom (objects m)) in
  mret (r, {| objects := <[r := self]> (objects m);
              _default_handler := _default_handler m |}).

Definition get_default_handler (m : module_state) :
  run (positive * module_state) :=
  match _default_handler m with
  | None =>
      '(r, m') ← new_handler m None;
      mret (r, {| objects := objects m'; _default_handler := Some r |})
  | Some r => mret (r, m)
  end.

Definition set_default_handler (m : module_state) (handler : positive) :
  module_state :=
  {| objects := objects m; _default_handler := Some handler |}.

(** [handler.update_ignore_list(new_ignore_list)] on a reference: the
    object at that address is assigned to.  [None] stands for a reference to
    no object, which no run produces. *)
Definition update_ignore_list_at (m : module_state) (handler : positive)
    (new_ignore_list : list str) : option (run module_state) :=
  match objects m !! handler with
  | None => None
  | Some self =>
      Some (self' ← update_ignore_list U self new_ignore_list;
            mret {| objects := <[handler := self']> (objects m);
                    _default_handler := _default_handler m |})
  end.

(** [handler.should_ignore_interrupt(...)] on a reference. *)
Definition should_ignore_interrupt_at (m : module_state) (handler : positive)
    (transcript : pyval) (agent_is_speaking : bool)
    (current_agent_state : option str) : option (run bool) :=
  match objects m !! handler with
  | None => None
  | Some self =>
      Some (should_ignore_interrupt U self transcript agent_is_speaking
              current_agent_state)
  end.
End DefaultHandler.

(** ** Handlers on shared configuration objects *)

(** [self._config] is a reference: [__init__] keeps the configuration object
    the caller passes, and [update_ignore_list] assigns to the [ignore_list]
    attribute of that object, which every handler built on it reads.  The
    derived set is an attribute of the handler itself.  A handler object
    holds the address of its configuration object and its derived set.
    Lists are values: the module never changes a list in place. *)
Record handler_object := {
  config_at : positive;
  ignore_list_lower_at : gset str;
}.

Record heap := {
  configs : gmap positive InterruptionHandlerConfig;
  handlers : gmap positive handler_object;
}.

(** The handler at a reference as its methods see it: its derived set and
    the present state of its configuration object. *)
Definition view (σ : heap) (handler : positive) : option InterruptionHandler :=
  o ← handlers σ !! handler;
  c ← configs σ !! config_at o;
  Some {| _config := c; _ignore_list_lower := ignore_list_lower_at o |}.

(** What a method that ran on the handler at [handler] leaves: the state of
    the configuration object at [config] and the handler's own attributes. *)
Definition store (σ : heap) (handler config : positive)
    (self : InterruptionHandler) : heap :=
  {| configs := <[config := _config self]> (configs σ);
     handlers :=
       <[handler := {| config_at := config;
                       ignore_list_lower_at := _ignore_list_lower self |}]>
         (handlers σ) |}.

(** The value a call on the heap returns, when its references are to live
    objects and it does not raise. *)
Definition returned {A} (r : option (run A)) : option A :=
  r ≫= λ r, match outcome r with inr a => Some a | inl _ => None end.

(** Every handler refers to a live configuration object, as in any run of
    the interpreter. *)
Definition live (σ : heap) : Prop :=
  ∀ h o, handlers σ !! h = Some o → is_Some (configs σ !! config_at o).

(** No handler other than [handler] refers to the configuration object of
    [handler]. *)
Definition sole_user (σ : heap) (handler : positive) : Prop :=
  ∀ o h' o',
    handlers σ !! handler = Some o → handlers σ !! h' = Some o' →
    config_at o' = config_at o → h' = handler.

Section Shared.
Context (U : unicode_db).

(** [InterruptionHandlerConfig(...)] evaluated in the heap: the new object
    gets an address no live configuration object has. *)
Definition new_config (σ : heap) (c : InterruptionHandlerConfig) :
  positive * heap :=
  let a := fresh (dom (configs σ)) in
  (a, {| configs := <[a := c]> (configs σ); handlers := handlers σ |}).

(** [InterruptionHandler(config)], [config] being [None] or a reference to
    a configuration object: the handler keeps that reference ([config or
    InterruptionHandlerConfig()], an object of the dataclass being truthy)
    and gets an address no live handler has.  [None] as a result stands for
    a reference to no object, which no run produces. *)
Definition construct_on (σ : heap) (config : option positive) :
  option (run (positive * heap)) :=
  let '(c, σ) := match config with
                 | Some c => (c, σ)
                 | None => new_config σ default_config
                 end in
  value ← configs σ !! c;
  Some (self ← init U (Some value);
        let h := fresh (dom (handlers σ)) in
        mret (h, store σ h c self)).

(** [handler.update_ignore_list(new_ignore_list)] on a reference: the
    assignment of line 150 goes to the configuration object, that of
    [_normalize_ignore_list] to the handler. *)
Definition update_ignore_list_on (σ : heap) (handler : positive)
    (new_ignore_list : list str) : option (run heap) :=
  o ← handlers σ !! handler;
  self ← view σ handler;
  Some (self' ← update_ignore_list U self new_ignore_list;
        mret (store σ handler (config_at o) self')).

(** [handler.should_ignore_interrupt(...)] on a reference; the heap is
    read only. *)
Definition should_ignore_interrupt_on (σ : heap) (handler : positive)
    (transcript : pyval) (agent_is_speaking : bool)
    (current_agent_state : option str) : option (run bool) :=
  self ← view σ handler;
  Some (should_ignore_interrupt U self transcript agent_is_speaking
          current_agent_state).

(** [handler.get_interrupt_reason(...)] on a reference; the heap is read
    only. *)
Definition get_interrupt_reason_on (σ : heap) (handler : positive)
    (transcript : pyval) (agent_is_speaking : bool) : option (run reason) :=
  self ← view σ handler;
  Some (get_interrupt_reason U self transcript agent_is_speaking).

(** The invariant of the specification at one handler: its derived set is
    the normalization of the list its configuration object holds now. *)
Definition consistent_at (σ : heap) (handler : positive) : Prop :=
  ∃ self, view σ handler = Some self ∧ consistent U self.
End Shared.

(** The specification's "whitespace-trimmed", written from its words to be
    compared with [str_strip]: [w] is [x] without the whitespace at its two
    ends. *)
Definition whitespace_trimmed (space : cp → bool) (x w : str) : Prop :=
  ∃ leading trailing,
    x = leading ++ w ++ trailing
    ∧ Forall (λ c, space c = true) leading
    ∧ Forall (λ c, space c = true) trailing
    ∧ from_option space false (head w) = false
    ∧ from_option space false (last w) = false.

(** One configuration object with the dataclass defaults, at address 1, and
    no handler yet. *)
Definition one_config : heap :=
  {| configs := {[ 1%positive := default_config ]}; handlers := ∅ |}.

(** ** The standalone copy of the handler kept with the tests *)

Module Standalone.

Record InterruptionHandlerStandalone := {
  _ignore_list_lower : gset str;
}.

Section Methods.
Context (U : unicode_db).

Definition init (ignore_list : option (list str)) :
  run InterruptionHandlerStandalone :=
  let ignore_list :=
    default (map lit ["yeah"; "ok"; "okay"; "hmm"; "right"; "uh-huh"; "huh";
                      "uh"]%string) ignore_list in
  mret {| _ignore_list_lower := normalized U ignore_list |}.

Definition _extract_words (text : pyval) : run (list str) :=
  match text with
  | PyNone => raise AttributeError
  | PyStr s => mret (findall (is_word U) (str_lower U s))
  end.

Fixpoint _has_non_filler_words (self : InterruptionHandlerStandalone)
    (words : list str) : bool :=
  match words with
  | [] => false
  | word :: words' =>
      if bool_decide (word ∉ _ignore_list_lower self) then true
      else _has_non_filler_words self words'
  end.

Definition should_ignore_interrupt (self : InterruptionHandlerStandalone)
    (transcript : pyval) (agent_is_speaking : bool) : run bool :=
  if negb (truthy transcript) then mret false
  else
    words ← _extract_words transcript;
    match words with
    | [] => mret false
    | _ :: _ =>
        if _has_non_filler_words self words then mret false
        else if agent_is_speaking then mret true
        else mret false
    end.

Definition get_interrupt_reason (self : InterruptionHandlerStandalone)
    (transcript : pyval) (agent_is_speaking : bool) : run reason :=
  words ← _extract_words transcript;
  match words with
  | [] => mret empty_transcript
  | _ :: _ =>
      if _has_non_filler_words self words then mret contains_semantic_content
      else if agent_is_speaking then
        mret passive_acknowledgement_ignored_agent_speaking
      else mret passive_acknowledgement_agent_silent
  end.
End Methods.

End Standalone.

(** ** The result log of the test files *)

Module TestLog.

(** What [TestLogger.log] is given: a level and a message.  The time of day
    that [log] puts in front of each line, and the printing of the line, are
    left out. *)
Inductive message :=
  | m_pass (test_name : str)
  | m_details (details : str)
  | m_fail (test_name : str)
  | m_expected (expected : str)
  | m_actual (actual : str)
  | m_blank
  | m_rule
  | m_title (title : str)
  | m_summary (passed total percent : Z)
  | m_failed_tests
  | m_failed (test_name details : str).

Record TestLogger := {
  logs : list (str * message);
  test_results : list (str * bool * str);
}.

(** An integer as an f-string prints it. *)
Definition decimal (z : Z) : str :=
  lit (NilZero.string_of_int (Z.to_int z)).

(** The text of a message, as the f-string or literal at the call of [log]
    builds it: the check mark is U+2713, the cross U+2717, the corner U+2514,
    the tee U+251C, the dash U+2500 and the bullet U+2022. *)
Definition text (m : message) : str :=
  match m with
  | m_pass test_name => [10003; 32]%N ++ test_name
  | m_details details => [32; 32; 9492; 9472; 32]%N ++ details
  | m_fail test_name => [10007; 32]%N ++ test_name
  | m_expected expected =>
      [32; 32; 9500; 9472; 32]%N ++ lit "Expected: " ++ expected
  | m_actual actual => [32; 32; 9492; 9472; 32]%N ++ lit "Actual: " ++ actual
  | m_blank => []
  | m_rule => replicate 80 61%N
  | m_title title => lit "  " ++ title
  | m_summary passed total percent =>
      lit "TEST SUMMARY: " ++ decimal passed ++ lit "/" ++ decimal total
      ++ lit " passed (" ++ decimal percent ++ lit "%)"
  | m_failed_tests => lit "Failed tests:"
  | m_failed test_name details =>
      [32; 32; 8226; 32]%N ++ test_name ++ lit ": " ++ details
  end.

(** The logged lines as text: the level and the message of each, in order. *)
Definition lines (self : TestLogger) : list (str * str) :=
  map (λ entry : str * message, (entry.1, text entry.2)) (logs self).

(** The exception of an integer division by zero. *)
Inductive error :=
  | ZeroDivisionError.

Definition log (self : TestLogger) (level : str) (m : message) : TestLogger :=
  {| logs := logs self ++ [(level, m)]; test_results := test_results self |}.

Definition test_pass (self : TestLogger) (test_name details : str) :
  TestLogger :=
  let self := log self (lit "PASS") (m_pass test_name) in
  let self := log self (lit "INFO") (m_details details) in
  {| logs := logs self;
     test_results := test_results self ++ [(test_name, true, details)] |}.

Definition test_fail (self : TestLogger) (test_name expected actual : str) :
  TestLogger :=
  let self := log self (lit "FAIL") (m_fail test_name) in
  let self := log self (lit "ERROR") (m_expected expected) in
  let self := log self (lit "ERROR") (m_actual actual) in
  {| logs := logs self;
     test_results :=
       test_results self
       ++ [(test_name, false,
            lit "Expected " ++ expected ++ lit ", got " ++ actual)] |}.

(** [sum(1 for _, result, _ in self.test_results if result)] *)
Fixpoint count_passed (results : list (str * bool * str)) : Z :=
  match results with
  | [] => 0
  | (_, result, _) :: results' =>
      ((if result then 1 else 0) + count_passed results')%Z
  end.

(** The loop over the failed tests at the end of [print_summary]. *)
Fixpoint log_failed (self : TestLogger) (results : list (str * bool * str)) :
  TestLogger :=
  match results with
  | [] => self
  | (name, result, details) :: results' =>
      log_failed (if result then self else log self [] (m_failed name details))
        results'
  end.

(** What follows the summary line. *)
Definition summary_tail (self : TestLogger) (passed total : Z) : TestLogger :=
  let self := log self [] m_rule in
  if (passed <? total)%Z then
    log_failed (log self [] m_failed_tests) (test_results self)
  else self.

(** [print_summary] of [test_interruption_handler.py]: the percentage is
    [100*passed//total].  The logger is returned as the call leaves it, with
    the exception if one was raised. *)
Definition print_summary (self : TestLogger) : TestLogger * (error + unit) :=
  let passed := count_passed (test_results self) in
  let total := Z.of_nat (length (test_results self)) in
  let self := log self [] m_blank in
  let self := log self [] m_rule in
  if (total =? 0)%Z then (self, inl ZeroDivisionError)
  else
    let self := log self [] (m_summary passed total (100 * passed / total)) in
    (summary_tail self passed total, inr tt).

(** [print_summary] of [test_interruption_handler_standalone.py]: the
    percentage is [100*passed//max(1,total)//1]. *)
Definition print_summary_standalone (self : TestLogger) :
  TestLogger * (error + unit) :=
  let passed := count_passed (test_results self) in
  let total := Z.of_nat (length (test_results self)) in
  let self := log self [] m_blank in
  let self := log self [] m_rule in
  let self :=
    log self [] (m_summary passed total (100 * passed / Z.max 1 total / 1)) in
  (summary_tail self passed total, inr tt).

End TestLog.

(** * Properties *)

(** ** The scan against the maximal runs *)

Section RegexFacts.
Variable word : cp → bool.

Lemma stops_word_at s : stops word true s ↔ word_at word (head s) = false.
Proof. destruct s; simpl; split; auto. Qed.

Lemma word_run_inside s i :
  (i < word_run word s)%nat → word_at word (s !! i) = true.
Proof.
  revert i. induction s as [|c s IH]; intros i Hi; simpl in *; [lia|].
  destruct (word c) eqn:Hc; [|lia].
  destruct i as [|i]; simpl; [done|]. apply IH. lia.
Qed.

Lemma word_run_end s : word_at word (s !! word_run word s) = false.
Proof.
  induction s as [|c s IH]; simpl; [done|].
  by destruct (word c) eqn:Hc; simpl.
Qed.

Lemma word_run_take s : Forall (λ c, word c = true) (take (word_run word s) s).
Proof.
  induction s as [|c s IH]; simpl; [constructor|].
  destruct (word c) eqn:Hc; simpl; by constructor.
Qed.

Lemma word_run_drop s : word_at word (head (drop (word_run word s) s)) = false.
Proof.
  induction s as [|c s IH]; simpl; [done|].
  destruct (word c) eqn:Hc; simpl; [done|]. by rewrite Hc.
Qed.

(** The greedy candidate already ends on a boundary: no backtracking step
    is ever taken. *)
Lemma try_lengths_greedy s :
  word_run word s ≠ 0%nat →
  try_lengths word (word_run word s) s
  = Some (take (word_run word s) s, drop (word_run word s) s).
Proof.
  destruct (word_run word s) as [|k] eqn:Hk; [done|]. intros _. simpl.
  unfold boundary. rewrite word_run_inside by lia.
  by rewrite <- Hk, word_run_end.
Qed.

Lemma match_here_word prev c s :
  word_at word prev = false → word c = true →
  match_here word prev (c :: s)
  = Some (c :: take (word_run word s) s, drop (word_run word s) s).
Proof.
  intros Hp Hc. unfold match_here, boundary. simpl. rewrite Hp, Hc. simpl.
  pose proof (try_lengths_greedy (c :: s)) as H. simpl in H.
  rewrite Hc in H. by apply H.
Qed.

Lemma match_here_separator prev c s :
  word c = false → match_here word prev (c :: s) = None.
Proof.
  intros Hc. unfold match_here, boundary. simpl. rewrite Hc.
  by destruct (word_at word prev).
Qed.

Lemma runs_separator c s ws :
  word c = false → maximal_runs word s ws → maximal_runs word (c :: s) ws.
Proof.
  intros Hc Hr. inversion Hr as [sep Hsep|sep w rest ws' Hsep Hw Hall Hrest Hr']; subst.
  - apply runs_done. by constructor.
  - apply (runs_word word (c :: sep)); auto.
Qed.

(** The scan yields the maximal runs whenever it does not start inside a
    word and has fuel for every character. *)
Lemma findall_from_runs fuel prev s :
  (length s ≤ fuel)%nat →
  (word_at word prev = true → word_at word (head s) = false) →
  maximal_runs word s (findall_from word fuel prev s).
Proof.
  revert prev s. induction fuel as [|fuel IH]; intros prev s Hlen Hin.
  - destruct s; simpl in *; [|lia]. apply runs_done. constructor.
  - destruct s as [|c s]; [apply runs_done; constructor|].
    cbn [findall_from]. destruct (word c) eqn:Hc.
    + assert (word_at word prev = false) as Hp.
      { destruct (word_at word prev) eqn:E; [|done].
        specialize (Hin eq_refl). simpl in Hin. congruence. }
      rewrite match_here_word by done.
      pose proof (word_run_drop s) as Hd.
      rewrite <- (take_drop (word_run word s) s) at 1.
      apply (runs_word word [] (c :: take (word_run word s) s)
               (drop (word_run word s) s)); auto.
      * constructor; [done | apply word_run_take].
      * apply IH; [|done]. rewrite length_drop. simpl in Hlen. lia.
    + rewrite match_here_separator by done.
      apply runs_separator; [done|].
      apply IH; [simpl in Hlen; lia|]. simpl. congruence.
Qed.

Lemma findall_runs s : maximal_runs word s (findall word s).
Proof. apply findall_from_runs; [done|]. simpl. congruence. Qed.

Lemma match_here_shorter prev c s w rest :
  match_here word prev (c :: s) = Some (w, rest) → (length rest ≤ length s)%nat.
Proof.
  unfold match_here. destruct (boundary word prev _); [|done].
  generalize (word_run word (c :: s)). intros k.
  induction k as [|k IHk]; simpl; [done|].
  destruct (boundary word _ _); [|done].
  intros [= <- <-]. rewrite length_drop. simpl. lia.
Qed.

(** Any fuel that covers the text gives the same tokens. *)
Lemma findall_from_fuel fuel fuel' prev s :
  (length s ≤ fuel)%nat → (length s ≤ fuel')%nat →
  findall_from word fuel prev s = findall_from word fuel' prev s.
Proof.
  revert fuel' prev s.
  induction fuel as [|fuel IH]; intros fuel' prev s Hlen Hlen'.
  - destruct s; simpl in *; [by destruct fuel' | lia].
  - destruct s as [|c s]; [by destruct fuel'|].
    destruct fuel' as [|fuel']; [simpl in Hlen'; lia|].
    cbn [findall_from]. simpl in Hlen, Hlen'.
    destruct (match_here word prev (c :: s)) as [[w rest]|] eqn:Hm.
    + apply match_here_shorter in Hm. f_equal. apply IH; lia.
    + apply IH; lia.
Qed.

Lemma run_split_unique (v : bool) a b a' b' :
  Forall (λ c, word c = v) a → Forall (λ c, word c = v) a' →
  stops word v b → stops word v b' → a ++ b = a' ++ b' → a = a' ∧ b = b'.
Proof.
  intros Ha. revert a'. induction Ha as [|c a Hc Ha IH]; intros a' Ha' Hb Hb' E.
  - destruct Ha' as [|c' a' Hc' Ha']; [done|]. simpl in E. subst b.
    simpl in Hb. rewrite Hc' in Hb. by destruct v.
  - destruct Ha' as [|c' a' Hc' Ha'].
    + simpl in E. subst b'. simpl in Hb'. rewrite Hc in Hb'. by destruct v.
    + simpl in E. injection E as -> E.
      destruct (IH a' Ha' Hb Hb' E) as [-> ->]. done.
Qed.

Lemma stops_run w rest :
  w ≠ [] → Forall (λ c, word c = true) w → stops word false (w ++ rest).
Proof. intros Hw Hall. destruct Hall; [done|]. done. Qed.

(** A text has one sequence of maximal runs. *)
Lemma maximal_runs_unique s ws ws' :
  maximal_runs word s ws → maximal_runs word s ws' → ws = ws'.
Proof.
  intros Hr. revert ws'.
  induction Hr as [sep Hsep|sep w rest ws Hsep Hw Hall Hrest Hr IH];
    intros ws' Hr'.
  - inversion Hr' as [|sep' w' rest' ws'' Hsep' Hw' Hall' Hrest' Hr'' E]; [done|].
    subst. exfalso. apply Forall_app in Hsep as [_ Hsep].
    apply Forall_app in Hsep as [Hsep _].
    destruct Hall' as [|c w' Hc _]; [done|].
    apply Forall_cons in Hsep as [Hsep _]. congruence.
  - inversion Hr' as [sep' Hsep' E|sep' w' rest' ws'' Hsep' Hw' Hall' Hrest' Hr'' E].
    + subst. exfalso. apply Forall_app in Hsep' as [_ Hsep'].
      apply Forall_app in Hsep' as [Hsep' _].
      destruct Hall as [|c w Hc _]; [done|].
      apply Forall_cons in Hsep' as [Hsep' _]. congruence.
    + subst.
      destruct (run_split_unique false sep' (w' ++ rest') sep (w ++ rest))
        as [-> E']; auto using stops_run.
      destruct (run_split_unique true w' rest' w rest) as [-> ->]; auto.
      * by apply stops_word_at.
      * by apply stops_word_at.
      * f_equal. by apply IH.
Qed.

Lemma maximal_runs_words s ws :
  maximal_runs word s ws →
  Forall (λ w, w ≠ [] ∧ Forall (λ c, word c = true) w) ws.
Proof. induction 1; constructor; auto. Qed.

Lemma maximal_runs_separators s :
  Forall (λ c, word c = false) s → findall word s = [].
Proof.
  intros Hs. apply (maximal_runs_unique s); [apply findall_runs|].
  by apply runs_done.
Qed.

Lemma findall_nil_separators s :
  findall word s = [] → Forall (λ c, word c = false) s.
Proof.
  intros E. pose proof (findall_runs s) as Hr. rewrite E in Hr.
  by inversion Hr.
Qed.
End RegexFacts.

(** ** The handler's methods, equationally *)

Section HandlerFacts.
Context (U : unicode_db).

Lemma init_outcome config : outcome (init U config) = inr (constructed U config).
Proof. unfold init, _normalize_ignore_list. simpl. by destruct (verbose_logging _). Qed.

Lemma update_outcome self l :
  outcome (update_ignore_list U self l)
  = inr (constructed U (Some (with_ignore_list (_config self) l))).
Proof.
  unfold update_ignore_list, _normalize_ignore_list. simpl.
  by destruct (verbose_logging _).
Qed.

Lemma extract_words_str s :
  _extract_words U (PyStr s) = mret (findall (is_word U) (str_lower U s)).
Proof. done. Qed.

Lemma extract_words_inv t ws :
  outcome (_extract_words U t) = inr ws →
  ∃ s, t = PyStr s ∧ ws = findall (is_word U) (str_lower U s).
Proof. destruct t as [|s]; simpl; [done|]. intros [= <-]. eauto. Qed.

Lemma extract_words_empty : outcome (_extract_words U (PyStr [])) = inr [].
Proof. done. Qed.

Lemma has_non_filler_true self words :
  _has_non_filler_words self words = true
  ↔ ∃ w, w ∈ words ∧ w ∉ _ignore_list_lower self.
Proof.
  induction words as [|w words IH]; simpl.
  - split; [done|]. intros (w & Hw & _). by apply elem_of_nil in Hw.
  - case_bool_decide as Hw.
    + split; [|done]. intros _. exists w. split; [left | done].
    + rewrite IH. split.
      * intros (w' & Hin & Hout). exists w'. split; [by right | done].
      * intros (w' & Hin & Hout). apply elem_of_cons in Hin as [->|Hin].
        -- by destruct Hout.
        -- eauto.
Qed.

Lemma has_non_filler_false self words :
  _has_non_filler_words self words = false
  ↔ Forall (λ w, w ∈ _ignore_list_lower self) words.
Proof.
  induction words as [|w words IH]; simpl.
  - split; [constructor | done].
  - case_bool_decide as Hw.
    + split; [done|]. intros H. by apply Forall_cons in H as [? _].
    + rewrite IH. split.
      * intros H. by constructor.
      * intros H. by apply Forall_cons in H as [_ ?].
Qed.

Lemma classify_outcome self s speaking state :
  outcome (should_ignore_interrupt U self (PyStr s) speaking state)
  = inr (enabled (_config self) && truthy (PyStr s)
         && verdict_of self (findall (is_word U) (str_lower U s)) speaking).
Proof.
  unfold should_ignore_interrupt, verdict_of.
  destruct (enabled (_config self)); [|done].
  destruct s as [|c s]; [done|]. cbn [negb orb andb truthy].
  rewrite extract_words_str.
  destruct (verbose_logging (_config self));
    destruct (findall _ _) as [|w ws]; cbn;
    try done; destruct (bool_decide _); cbn; try done;
    destruct (_has_non_filler_words _ _); cbn; try done;
    by destruct speaking.
Qed.

Lemma classify_none self speaking state :
  outcome (should_ignore_interrupt U self PyNone speaking state) = inr false.
Proof. unfold should_ignore_interrupt. by destruct (enabled _). Qed.

Lemma explain_outcome self s speaking :
  outcome (get_interrupt_reason U self (PyStr s) speaking)
  = inr (match findall (is_word U) (str_lower U s) with
         | [] => empty_transcript
         | words =>
             if _has_non_filler_words self words then contains_semantic_content
             else if speaking then passive_acknowledgement_ignored_agent_speaking
             else passive_acknowledgement_agent_silent
         end).
Proof.
  unfold get_interrupt_reason. rewrite extract_words_str.
  destruct (findall _ _) as [|w ws]; [done|]. cbn.
  destruct (bool_decide _); cbn; [done|].
  destruct (_has_non_filler_words _ _); [done|]. by destruct speaking.
Qed.

Lemma explain_none self speaking :
  outcome (get_interrupt_reason U self PyNone speaking) = inl AttributeError.
Proof. done. Qed.
End HandlerFacts.

(** ** Text below 128 *)

Lemma ascii_text_cons c s :
  ascii_text (c :: s) = true ↔ is_ascii c = true ∧ ascii_text s = true.
Proof. unfold ascii_text. simpl. apply andb_true_iff. Qed.

Lemma ascii_lower_is_ascii c : is_ascii c = true → is_ascii (ascii_lower c) = true.
Proof.
  unfold is_ascii, ascii_lower, in_range. intros H%N.ltb_lt.
  destruct (_ && _) eqn:E; apply N.ltb_lt; [|done].
  apply andb_true_iff in E as [_ E%N.leb_le]. lia.
Qed.

Lemma ascii_lower_upper c : ascii_lower (ascii_upper c) = ascii_lower c.
Proof.
  unfold ascii_lower, ascii_upper, in_range.
  destruct (N.leb_spec 97 c), (N.leb_spec c 122), (N.leb_spec 65 c),
    (N.leb_spec c 90); simpl;
    repeat match goal with
           | |- context [N.leb ?a ?b] => destruct (N.leb_spec a b); simpl
           end; lia.
Qed.

Lemma ascii_text_lower s :
  ascii_text s = true → ascii_text (map ascii_lower s) = true.
Proof.
  induction s as [|c s IH]; [done|].
  change (map ascii_lower (c :: s)) with (ascii_lower c :: map ascii_lower s).
  rewrite !ascii_text_cons. intros [Hc Hs]. auto using ascii_lower_is_ascii.
Qed.

Lemma ascii_word_lower c : ascii_word (ascii_lower c) = ascii_word c.
Proof.
  unfold ascii_word, ascii_lower, in_range.
  destruct (N.leb_spec 65 c), (N.leb_spec c 90); simpl; try done;
  repeat match goal with
         | |- context [N.leb ?a ?b] => destruct (N.leb_spec a b); simpl
         | |- context [N.eqb ?a ?b] => destruct (N.eqb_spec a b); simpl
         end; lia.
Qed.

Lemma latin1_faithful : ascii_faithful latin1.
Proof.
  split; simpl; intros.
  - unfold latin1_lower. by rewrite H.
  - unfold latin1_upper. by rewrite H.
  - unfold latin1_word. by rewrite H.
  - unfold latin1_space. by rewrite H.
Qed.

Lemma class_transfer (f g : cp → bool) (v : bool) s :
  Forall (λ c, f c = g c) s → Forall (λ c, f c = v) s →
  Forall (λ c, g c = v) s.
Proof.
  induction 1 as [|c s Hc Hs IH]; [constructor|].
  intros [Hv Hall]%Forall_cons. constructor; [congruence | auto].
Qed.

(** The tokens depend on the class [\w] at the characters of the text
    only. *)
Lemma maximal_runs_ext (f g : cp → bool) s ws :
  Forall (λ c, f c = g c) s → maximal_runs f s ws → maximal_runs g s ws.
Proof.
  intros Hs Hr. induction Hr as [sep Hsep|sep w rest ws Hsep Hw Hall Hrest Hr IH].
  - apply runs_done. by apply (class_transfer f g).
  - apply Forall_app in Hs as [Hs1 Hs2]. apply Forall_app in Hs2 as [Hs2 Hs3].
    apply runs_word; eauto using class_transfer.
    destruct Hs3 as [|c rest Hc _]; [done|]. simpl in *. congruence.
Qed.

Lemma findall_ext (f g : cp → bool) s :
  Forall (λ c, f c = g c) s → findall f s = findall g s.
Proof.
  intros Hs. apply (maximal_runs_unique g s); [|apply findall_runs].
  apply (maximal_runs_ext f g); [done | apply findall_runs].
Qed.

Lemma lstrip_suffix U s : ∃ p, s = p ++ lstrip U s.
Proof.
  induction s as [|c s [p IH]]; [by exists []|]. simpl.
  destruct (is_space U c); [|by exists []].
  exists (c :: p). simpl. by f_equal.
Qed.

Lemma lstrip_ext U V s :
  Forall (λ c, is_space U c = is_space V c) s → lstrip U s = lstrip V s.
Proof.
  induction 1 as [|c s Hc Hs IH]; [done|]. simpl. rewrite <- Hc.
  by destruct (is_space U c).
Qed.

Lemma str_strip_ext U V s :
  Forall (λ c, is_space U c = is_space V c) s → str_strip U s = str_strip V s.
Proof.
  intros Hs. unfold str_strip. rewrite <- (lstrip_ext U V s Hs).
  f_equal. apply lstrip_ext. apply Forall_rev.
  destruct (lstrip_suffix U s) as [p Hp]. rewrite Hp in Hs.
  by apply Forall_app in Hs as [_ ?].
Qed.

Section AsciiFacts.
Context (U : unicode_db) (HU : ascii_faithful U).

Lemma lower_from_ascii before s :
  ascii_text s = true → lower_from U before s = map ascii_lower s.
Proof.
  revert before. induction s as [|c s IH]; intros before; [done|].
  rewrite ascii_text_cons. intros [Hc Hs]. simpl.
  by rewrite (lower_ascii U HU), IH.
Qed.

Lemma str_lower_ascii s :
  ascii_text s = true → str_lower U s = map ascii_lower s.
Proof. apply lower_from_ascii. Qed.

Lemma str_upper_ascii s :
  ascii_text s = true → str_upper U s = map ascii_upper s.
Proof.
  unfold str_upper. induction s as [|c s IH]; [done|].
  rewrite ascii_text_cons. intros [Hc Hs]. simpl.
  by rewrite (upper_ascii U HU), IH.
Qed.

Lemma extract_words_ascii s :
  ascii_text s = true →
  outcome (_extract_words U (PyStr s))
  = inr (findall (is_word U) (map ascii_lower s)).
Proof. intros Hs. simpl. by rewrite str_lower_ascii. Qed.

Lemma tokens_ascii s :
  ascii_text s = true →
  findall (is_word U) (str_lower U s) = findall ascii_word (map ascii_lower s).
Proof.
  intros Hs. rewrite str_lower_ascii by done.
  apply findall_ext. apply ascii_text_lower in Hs.
  apply Forall_forall. intros c Hc. apply (word_ascii U HU).
  unfold ascii_text in Hs. rewrite forallb_forall in Hs.
  apply Hs. by apply list_elem_of_In.
Qed.

Lemma str_strip_ascii s :
  ascii_text s = true → str_strip U s = str_strip latin1 s.
Proof.
  intros Hs. apply str_strip_ext. apply Forall_forall. intros c Hc.
  unfold ascii_text in Hs. rewrite forallb_forall in Hs.
  rewrite (space_ascii U HU) by (apply Hs; by apply list_elem_of_In).
  rewrite (space_ascii latin1 latin1_faithful);
    [done | apply Hs; by apply list_elem_of_In].
Qed.

End AsciiFacts.

Lemma normalized_ascii U l :
  ascii_faithful U → forallb ascii_text l = true →
  normalized U l = normalized latin1 l.
Proof.
  intros HU Hl. unfold normalized. f_equal. apply map_ext_in. intros w Hw.
  rewrite forallb_forall in Hl. specialize (Hl w Hw).
  rewrite (str_lower_ascii U HU), (str_lower_ascii latin1 latin1_faithful)
    by done.
  apply str_strip_ascii; [done|]. by apply ascii_text_lower.
Qed.

Lemma constructed_default U :
  ascii_faithful U → constructed U None = constructed latin1 None.
Proof.
  intros HU. unfold constructed. f_equal. by apply normalized_ascii.
Qed.

(** ** The decision rule *)

(** C2. With the handler enabled, a transcript whose token sequence is not
    empty and holds filler tokens only is ignored while the agent speaks and
    answered while the agent is silent. *)
Theorem filler_only_verdict U self transcript words state :
  enabled (_config self) = true →
  outcome (_extract_words U transcript) = inr words →
  words ≠ [] →
  Forall (λ w, w ∈ _ignore_list_lower self) words →
  outcome (should_ignore_interrupt U self transcript true state) = inr true
  ∧ outcome (should_ignore_interrupt U self transcript false state) = inr false.
Proof.
  intros Hen Hwords Hne Hfill.
  apply extract_words_inv in Hwords as (s & -> & ->).
  rewrite !classify_outcome, Hen. unfold verdict_of.
  apply has_non_filler_false in Hfill. rewrite Hfill.
  rewrite bool_decide_eq_false_2 by done.
  destruct s as [|c s]; [done|]. done.
Qed.

Lemma filler_only_verdict_witness :
  outcome (should_ignore_interrupt latin1 (constructed latin1 None)
             (PyStr (lit "Yeah, okay!")) true None) = inr true
  ∧ outcome (should_ignore_interrupt latin1 (constructed latin1 None)
               (PyStr (lit "Yeah, okay!")) false None) = inr false.
Proof.
  apply (filler_only_verdict latin1 (constructed latin1 None)
           (PyStr (lit "Yeah, okay!")) [lit "yeah"; lit "okay"] None).
  - reflexivity.
  - vm_compute. reflexivity.
  - discriminate.
  - repeat constructor; vm_compute; reflexivity.
Defined.

(** C3. A transcript with at least one token outside the filler set is
    answered, whatever the speaking state and however many filler tokens
    stand beside it. *)
Theorem non_filler_token_responds U self transcript words speaking state :
  outcome (_extract_words U transcript) = inr words →
  (∃ w, w ∈ words ∧ w ∉ _ignore_list_lower self) →
  outcome (should_ignore_interrupt U self transcript speaking state) = inr false.
Proof.
  intros Hwords Hout.
  apply extract_words_inv in Hwords as (s & -> & ->).
  rewrite classify_outcome. unfold verdict_of.
  apply has_non_filler_true in Hout. rewrite Hout. simpl.
  by rewrite andb_false_r.
Qed.

Lemma non_filler_token_responds_witness :
  outcome (should_ignore_interrupt latin1 (constructed latin1 None)
             (PyStr (lit "yeah okay but wait")) true None) = inr false.
Proof.
  apply (non_filler_token_responds latin1 (constructed latin1 None)
           (PyStr (lit "yeah okay but wait"))
           [lit "yeah"; lit "okay"; lit "but"; lit "wait"] true None).
  - vm_compute. reflexivity.
  - exists (lit "but"). split.
    + apply list_elem_of_In. vm_compute. tauto.
    + apply (bool_decide_unpack _). vm_compute. exact I.
Defined.

(** C4. A disabled handler, a null or empty transcript, and a transcript
    without any token are all answered. *)
Theorem degenerate_input_responds U self transcript speaking state :
  enabled (_config self) = false ∨ transcript = PyNone
  ∨ transcript = PyStr [] ∨ outcome (_extract_words U transcript) = inr [] →
  outcome (should_ignore_interrupt U self transcript speaking state) = inr false.
Proof.
  intros [Hen|[->|[->|Hwords]]].
  - unfold should_ignore_interrupt. by rewrite Hen.
  - apply classify_none.
  - rewrite classify_outcome. simpl. by rewrite andb_false_r.
  - apply extract_words_inv in Hwords as (s & -> & Hs).
    rewrite classify_outcome, <- Hs. unfold verdict_of. simpl.
    by rewrite !andb_false_r.
Qed.

Lemma degenerate_input_responds_witness :
  outcome (_extract_words latin1 (PyStr (lit "..."))) = inr []
  ∧ outcome (should_ignore_interrupt latin1 (constructed latin1 None)
               (PyStr (lit "...")) true None) = inr false.
Proof.
  split; [vm_compute; reflexivity|].
  apply (degenerate_input_responds latin1 (constructed latin1 None)
           (PyStr (lit "...")) true None).
  right. right. right. vm_compute. reflexivity.
Defined.

(** ** The tokenizer *)

Lemma extract_words_runs U text :
  maximal_runs (is_word U) (str_lower U text)
    (findall (is_word U) (str_lower U text)).
Proof. apply findall_runs. Qed.

Lemma ascii_separators_spec text :
  ascii_separators text = true →
  ascii_text text = true ∧ Forall (λ c, ascii_word c = false) text.
Proof.
  unfold ascii_separators, ascii_text.
  induction text as [|c text IH]; simpl; [by split; [|constructor]|].
  intros [[Hc Hw%negb_true_iff]%andb_true_iff Ht]%andb_true_iff.
  destruct (IH Ht) as [IH1 IH2]. rewrite Hc, IH1. split; [done | by constructor].
Qed.

Ltac bool_to_prop :=
  repeat match goal with
    | H : (_ || _) = false |- _ => apply orb_false_iff in H as [? ?]
    | H : (_ && _) = true |- _ => apply andb_true_iff in H as [? ?]
    | H : (_ || _) = true |- _ => apply orb_true_iff in H
    | H : (_ && _) = false |- _ => apply andb_false_iff in H
    | H : negb _ = true |- _ => apply negb_true_iff in H
    | H : negb _ = false |- _ => apply negb_false_iff in H
    | H : (_ <=? _) = true |- _ => apply N.leb_le in H
    | H : (_ <=? _) = false |- _ => apply N.leb_gt in H
    | H : (_ <? _) = true |- _ => apply N.ltb_lt in H
    | H : (_ <? _) = false |- _ => apply N.ltb_ge in H
    | H : (_ =? _) = true |- _ => apply N.eqb_eq in H
    | H : (_ =? _) = false |- _ => apply N.eqb_neq in H
    end.

Ltac bool_lia :=
  repeat (bool_to_prop;
          match goal with H : _ ∨ _ |- _ => destruct H end);
  bool_to_prop; lia.

Lemma ascii_lower_separator c : ascii_word c = false → ascii_lower c = c.
Proof.
  unfold ascii_word, ascii_lower, in_range. intros H.
  destruct ((65 <=? c) && (c <=? 90)) eqn:E; [|done].
  by rewrite orb_true_r in H.
Qed.

Lemma latin1_lower_separator c : latin1_word c = false → latin1_lower c = c.
Proof.
  unfold latin1_word, latin1_lower. destruct (is_ascii c).
  - apply ascii_lower_separator.
  - unfold in_range. intros H.
    destruct ((192 <=? c) && (c <=? 222) && negb (c =? 215)) eqn:E1.
    { exfalso. clear -H E1. bool_lia. }
    destruct (c =? 376) eqn:E2.
    { exfalso. clear -H E2. bool_lia. }
    destruct (c =? 924) eqn:E3; [|done].
    exfalso. clear -H E3. bool_lia.
Qed.

Lemma latin1_space_separator c : latin1_space c = true → latin1_word c = false.
Proof.
  unfold latin1_space, latin1_word. destruct (is_ascii c).
  - unfold ascii_space, ascii_word, in_range. intros H.
    repeat (apply orb_false_iff; split);
      try apply N.eqb_neq;
      try (apply not_true_is_false; intros ?); bool_lia.
  - intros [->%N.eqb_eq | ->%N.eqb_eq]%orb_true_iff; reflexivity.
Qed.

Lemma latin1_separators : separators_faithful latin1.
Proof.
  split; simpl.
  - intros _ c _ Hc. constructor; [|constructor].
    by rewrite latin1_lower_separator.
  - apply latin1_space_separator.
Qed.

Lemma lower_from_separators U before text :
  separators_faithful U →
  Forall (λ c, is_word U c = false) text →
  Forall (λ c, is_word U c = false) (lower_from U before text).
Proof.
  intros HS Ht. revert before.
  induction Ht as [|c text Hc _ IH]; intros before; [constructor|].
  simpl. apply Forall_app. split; [by apply (lower_separator U HS) | apply IH].
Qed.

(** C5. The tokenizer lower-cases its input and returns exactly the maximal
    runs of word characters (letters, digits, underscore) in order, every
    other character being a separator: on ASCII text the tokens are the
    maximal runs of the text with A to Z replaced by a to z, "uh-huh" gives
    "uh" and "huh", "YEAH, Ok_1" gives "yeah" and "ok_1"; the token sequence
    is empty exactly when the lower-cased text has no word character, as
    for empty text and for any text of whitespace and punctuation. *)
Theorem extract_words_maximal_runs U
    (HU : ascii_faithful U) (HS : separators_faithful U) :
  (∀ text, ∃ words,
      outcome (_extract_words U (PyStr text)) = inr words
      ∧ maximal_runs (is_word U) (str_lower U text) words
      ∧ ∀ words', maximal_runs (is_word U) (str_lower U text) words' →
                  words' = words)
  ∧ (∀ text, ascii_text text = true →
       ∃ words,
         outcome (_extract_words U (PyStr text)) = inr words
         ∧ maximal_runs ascii_word (map ascii_lower text) words
         ∧ ∀ words', maximal_runs ascii_word (map ascii_lower text) words' →
                     words' = words)
  ∧ outcome (_extract_words U (PyStr (lit "uh-huh")))
    = inr [lit "uh"; lit "huh"]
  ∧ outcome (_extract_words U (PyStr (lit "YEAH, Ok_1")))
    = inr [lit "yeah"; lit "ok_1"]
  ∧ (∀ text, outcome (_extract_words U (PyStr text)) = inr []
             ↔ Forall (λ c, is_word U c = false) (str_lower U text))
  ∧ outcome (_extract_words U (PyStr [])) = inr []
  ∧ (∀ text, ascii_separators text = true →
             outcome (_extract_words U (PyStr text)) = inr [])
  ∧ (∀ text,
       Forall (λ c, is_space U c = true ∨ is_word U c = false) text →
       outcome (_extract_words U (PyStr text)) = inr []).
Proof.
  assert (∀ text, ascii_text text = true →
            outcome (_extract_words U (PyStr text))
            = inr (findall ascii_word (map ascii_lower text))) as Hascii.
  { intros text Ht. simpl. by rewrite (tokens_ascii U HU). }
  split; [|split; [|split; [|split; [|split; [|split; [|split]]]]]].
  - intros text. exists (findall (is_word U) (str_lower U text)).
    split; [done|]. split; [apply extract_words_runs|].
    intros words' Hr. apply (maximal_runs_unique (is_word U) (str_lower U text));
      [done | apply extract_words_runs].
  - intros text Ht. exists (findall ascii_word (map ascii_lower text)).
    split; [by apply Hascii|]. split; [apply findall_runs|].
    intros words' Hr.
    apply (maximal_runs_unique ascii_word (map ascii_lower text));
      [done | apply findall_runs].
  - rewrite Hascii by reflexivity. vm_compute. reflexivity.
  - rewrite Hascii by reflexivity. vm_compute. reflexivity.
  - intros text. simpl. split.
    + intros [= E]. by apply findall_nil_separators.
    + intros Hs. f_equal. by apply maximal_runs_separators.
  - done.
  - intros text [Ha Hs]%ascii_separators_spec. simpl. f_equal.
    apply maximal_runs_separators. rewrite (str_lower_ascii U HU) by done.
    apply Forall_forall. intros c [c' [-> Hc']]%list_elem_of_fmap.
    unfold ascii_text in Ha. rewrite forallb_forall in Ha.
    rewrite (word_ascii U HU)
      by (apply ascii_lower_is_ascii, Ha; by apply list_elem_of_In).
    rewrite ascii_word_lower. rewrite Forall_forall in Hs. by apply Hs.
  - intros text Ht. simpl. f_equal. apply maximal_runs_separators.
    apply lower_from_separators; [done|].
    eapply Forall_impl; [exact Ht|]. simpl.
    intros c [Hc|Hc]; [by apply (space_separator U HS) | done].
Qed.

Lemma extract_words_maximal_runs_witness :
  outcome (_extract_words latin1 (PyStr (lit "uh-huh")))
  = inr [lit "uh"; lit "huh"]
  ∧ outcome (_extract_words latin1 (PyStr (lit "YEAH, Ok_1")))
    = inr [lit "yeah"; lit "ok_1"]
  ∧ outcome (_extract_words latin1 (PyStr [160; 46; 32; 191])) = inr [].
Proof.
  destruct (extract_words_maximal_runs latin1 latin1_faithful
              latin1_separators) as (_ & _ & H1 & H2 & _ & _ & _ & H3).
  split; [exact H1|]. split; [exact H2|]. apply H3.
  do 4 (apply List.Forall_cons; [right; reflexivity|]). apply List.Forall_nil.
Defined.

(** ** Upper-casing the transcript *)

Lemma ascii_upper_is_ascii c : is_ascii c = true → is_ascii (ascii_upper c) = true.
Proof.
  unfold is_ascii, ascii_upper, in_range. intros H%N.ltb_lt.
  destruct (_ && _); apply N.ltb_lt; lia.
Qed.

(** On ASCII text, lower-casing undoes upper-casing. *)
Lemma ascii_lower_of_upper U text :
  ascii_faithful U → ascii_text text = true →
  str_lower U (str_upper U text) = str_lower U text.
Proof.
  intros HU Ht. rewrite (str_upper_ascii U HU) by done.
  assert (ascii_text (map ascii_upper text) = true) as Hup.
  { unfold ascii_text in *. rewrite forallb_forall in *.
    intros c [c' [<- Hc']]%in_map_iff. apply ascii_upper_is_ascii. auto. }
  rewrite !(str_lower_ascii U HU) by done.
  rewrite map_map. apply map_ext. intros c. apply ascii_lower_upper.
Qed.

Lemma verdict_of_nil self speaking : verdict_of self [] speaking = false.
Proof. unfold verdict_of. by rewrite bool_decide_eq_true_2. Qed.

Lemma uppercase_verdict U self text speaking state :
  str_lower U (str_upper U text) = str_lower U text →
  outcome (should_ignore_interrupt U self (PyStr text) speaking state)
  = outcome (should_ignore_interrupt U self (PyStr (str_upper U text))
               speaking state).
Proof.
  intros Hcase. rewrite !classify_outcome, Hcase. f_equal.
  destruct (enabled (_config self)); [|done]. cbn [andb].
  destruct text as [|c text].
  - change (findall (is_word U) (str_lower U [])) with ([] : list str).
    by rewrite verdict_of_nil, !andb_false_r.
  - destruct (str_upper U (c :: text)) as [|c' up] eqn:Hup; [|done].
    rewrite <- Hcase.
    change (findall (is_word U) (str_lower U [])) with ([] : list str).
    by rewrite verdict_of_nil, !andb_false_r.
Qed.

Lemma uppercase_verdict_ascii U self text speaking state :
  ascii_faithful U → ascii_text text = true →
  outcome (should_ignore_interrupt U self (PyStr text) speaking state)
  = outcome (should_ignore_interrupt U self (PyStr (str_upper U text))
               speaking state).
Proof. intros HU Ht. by apply uppercase_verdict, ascii_lower_of_upper. Qed.

(** C6, as the code has it. A transcript of filler tokens whose upper-case
    form lower-cases to the same text as the transcript itself (every ASCII
    transcript does) gets the same verdict in upper case. *)
Theorem uppercase_same_verdict U self text words speaking state :
  outcome (_extract_words U (PyStr text)) = inr words →
  Forall (λ w, w ∈ _ignore_list_lower self) words →
  str_lower U (str_upper U text) = str_lower U text →
  outcome (should_ignore_interrupt U self (PyStr text) speaking state)
  = outcome (should_ignore_interrupt U self (PyStr (str_upper U text))
               speaking state).
Proof. intros _ _. apply uppercase_verdict. Qed.

Lemma uppercase_same_verdict_witness :
  str_upper latin1 (lit "Yeah ok") = lit "YEAH OK"
  ∧ outcome (should_ignore_interrupt latin1 (constructed latin1 None)
               (PyStr (lit "Yeah ok")) true None)
    = outcome (should_ignore_interrupt latin1 (constructed latin1 None)
                 (PyStr (str_upper latin1 (lit "Yeah ok"))) true None).
Proof.
  split; [reflexivity|].
  apply (uppercase_same_verdict latin1 (constructed latin1 None)
           (lit "Yeah ok") [lit "yeah"; lit "ok"] true None).
  - vm_compute. reflexivity.
  - repeat constructor; vm_compute; reflexivity.
  - vm_compute. reflexivity.
Defined.

(** C6 as stated fails: with the filler list ["ß"], the transcript "ß" is
    one filler token and is ignored while the agent speaks; its upper-case
    form "SS" lower-cases to "ss", which is no filler, and is answered. *)
Lemma uppercase_changes_verdict :
  ¬ (∀ words,
       outcome (_extract_words latin1 (PyStr [223])) = inr words →
       Forall (λ w, w ∈ _ignore_list_lower
                          (constructed latin1
                             (Some (with_ignore_list default_config [[223]]))))
         words →
       ∀ speaking,
         outcome (should_ignore_interrupt latin1
                    (constructed latin1
                       (Some (with_ignore_list default_config [[223]])))
                    (PyStr [223]) speaking None)
         = outcome (should_ignore_interrupt latin1
                      (constructed latin1
                         (Some (with_ignore_list default_config [[223]])))
                      (PyStr (str_upper latin1 [223])) speaking None)).
Proof.
  intros H.
  assert (outcome (_extract_words latin1 (PyStr [223])) = inr [[223]]) as Hw
    by (vm_compute; reflexivity).
  specialize (H _ Hw).
  assert (inr true = (inr false : exn + bool)) as E; [|discriminate E].
  refine (H _ true). repeat constructor.
Qed.

(** ** Replacing the filler list *)

Lemma elem_of_normalized U l w :
  w ∈ normalized U l ↔ ∃ x, x ∈ l ∧ w = str_strip U (str_lower U x).
Proof.
  unfold normalized. rewrite elem_of_list_to_set, list_elem_of_In, in_map_iff.
  split; intros (x & H1 & H2).
  - exists x. by rewrite list_elem_of_In.
  - exists x. by rewrite <- list_elem_of_In.
Qed.

Lemma constructed_consistent U config : consistent U (constructed U config).
Proof. done. Qed.

Lemma perform_consistent U self c :
  consistent U self → consistent U (perform U self c).1.
Proof.
  intros Hself. destruct c as [t s a|t s|l]; simpl; [done..|].
  rewrite update_outcome. simpl. apply constructed_consistent.
Qed.

Lemma session_consistent U self cs :
  consistent U self → consistent U (session U self cs).1.
Proof.
  revert self. induction cs as [|c cs IH]; intros self Hself; [done|].
  pose proof (perform_consistent U self c Hself) as Hp. cbn [session].
  destruct (perform U self c) as [self' a]. specialize (IH self' Hp).
  by destruct (session U self' cs) as [self'' answers].
Qed.

Lemma verdict_true_iff U self transcript speaking state :
  outcome (should_ignore_interrupt U self transcript speaking state) = inr true
  ↔ enabled (_config self) = true ∧ speaking = true
    ∧ ∃ words, outcome (_extract_words U transcript) = inr words
               ∧ words ≠ []
               ∧ Forall (λ w, w ∈ _ignore_list_lower self) words.
Proof.
  destruct transcript as [|text].
  - rewrite classify_none. split; [done|]. by intros (_ & _ & ws & ? & _).
  - rewrite classify_outcome. unfold verdict_of. split.
    + intros [= H]. apply andb_true_iff in H as [[He _]%andb_true_iff H].
      apply andb_true_iff in H as [[Hf Hn]%andb_true_iff Hs].
      split; [done|]. split; [done|].
      exists (findall (is_word U) (str_lower U text)). split; [done|].
      apply negb_true_iff in Hf, Hn. apply bool_decide_eq_false in Hn.
      split; [done|]. by apply has_non_filler_false.
    + intros (He & -> & ws & [= <-] & Hn & Hf).
      apply has_non_filler_false in Hf. rewrite He, Hf.
      rewrite bool_decide_eq_false_2 by done.
      destruct text as [|c text]; [done|]. done.
Qed.

Lemma classify_returns U self transcript speaking state :
  ∃ verdict,
    outcome (should_ignore_interrupt U self transcript speaking state)
    = inr verdict.
Proof.
  destruct transcript as [|text];
    [rewrite classify_none | rewrite classify_outcome]; eauto.
Qed.

Lemma session_forgets_previous U self old_list old_set new_list calls :
  (session U self (Replace new_list :: calls)).2
  = (session U {| _config := with_ignore_list (_config self) old_list;
                  _ignore_list_lower := old_set |}
       (Replace new_list :: calls)).2.
Proof. simpl. by rewrite !update_outcome. Qed.

(** *** Trimming against the specification's words *)

Lemma lstrip_spaces U l s :
  Forall (λ c, is_space U c = true) l → lstrip U (l ++ s) = lstrip U s.
Proof. induction 1 as [|c l Hc _ IH]; [done|]. simpl. by rewrite Hc. Qed.

Lemma lstrip_all_spaces U l :
  Forall (λ c, is_space U c = true) l → lstrip U l = [].
Proof. induction 1 as [|c l Hc _ IH]; [done|]. simpl. by rewrite Hc. Qed.

Lemma lstrip_head U s :
  from_option (is_space U) false (head s) = false → lstrip U s = s.
Proof. destruct s as [|c s]; [done|]. simpl. by intros ->. Qed.

Lemma lstrip_spec U s :
  ∃ p, s = p ++ lstrip U s
       ∧ Forall (λ c, is_space U c = true) p
       ∧ from_option (is_space U) false (head (lstrip U s)) = false.
Proof.
  induction s as [|c s (p & Hp & Hsp & Hh)]; [by exists []|]. simpl.
  destruct (is_space U c) eqn:Hc.
  - exists (c :: p). split; [simpl; by f_equal|]. split; [by constructor|done].
  - exists []. split; [done|]. split; [constructor|]. simpl. done.
Qed.

Lemma head_rev (s : str) : head (rev s) = last s.
Proof.
  induction s as [|c s IH]; [done|]. simpl.
  destruct s as [|d s]; [done|]. rewrite last_cons. rewrite <- IH. simpl.
  by destruct (rev s ++ [d]).
Qed.

Lemma strip_of_trimmed U x w :
  whitespace_trimmed (is_space U) x w → str_strip U x = w.
Proof.
  intros (l & t & -> & Hl & Ht & Hh & Hlast). unfold str_strip.
  rewrite (lstrip_spaces U l _ Hl). destruct w as [|c w].
  - simpl. rewrite (lstrip_all_spaces U t Ht). done.
  - rewrite (lstrip_head U ((c :: w) ++ t)) by done.
    rewrite rev_app_distr.
    rewrite lstrip_spaces by (by apply Forall_rev).
    rewrite lstrip_head by (by rewrite head_rev).
    apply rev_involutive.
Qed.

Lemma strip_trimmed U x : whitespace_trimmed (is_space U) x (str_strip U x).
Proof.
  unfold str_strip.
  destruct (lstrip_spec U x) as (p & Hp & Hsp & Hh).
  destruct (lstrip_spec U (rev (lstrip U x))) as (q & Hq & Hsq & Hhq).
  set (t := lstrip U x) in *. set (r := lstrip U (rev t)) in *.
  assert (t = rev r ++ rev q) as Ht.
  { rewrite <- rev_app_distr, <- Hq. by rewrite rev_involutive. }
  exists p, (rev q). split; [by rewrite <- Ht|].
  split; [done|]. split; [by apply Forall_rev|]. split.
  - destruct (rev r) as [|c r'] eqn:Hr; [done|].
    rewrite Ht in Hh. done.
  - by rewrite <- head_rev, rev_involutive.
Qed.

Lemma strip_iff_trimmed U x w :
  w = str_strip U x ↔ whitespace_trimmed (is_space U) x w.
Proof.
  split; [intros ->; apply strip_trimmed|].
  intros H. symmetry. by apply strip_of_trimmed.
Qed.

Lemma trimmed_ext (space space' : cp → bool) x w :
  Forall (λ c, space c = space' c) x →
  whitespace_trimmed space x w → whitespace_trimmed space' x w.
Proof.
  intros Hx (l & t & -> & Hl & Ht & Hh & Hlast).
  apply Forall_app in Hx as [Hxl Hx]. apply Forall_app in Hx as [Hxw Hxt].
  exists l, t. split; [done|]. split; [|split; [|split]].
  - rewrite Forall_forall in *. intros c Hc. rewrite <- (Hxl c Hc). auto.
  - rewrite Forall_forall in *. intros c Hc. rewrite <- (Hxt c Hc). auto.
  - destruct w as [|c w]; [done|]. simpl in *.
    apply Forall_cons in Hxw as [<- _]. done.
  - destruct (last w) as [c|] eqn:Hc; [|done]. simpl in *.
    rewrite Forall_forall in Hxw. rewrite <- (Hxw c); [done|].
    apply last_Some in Hc as [w' ->]. apply elem_of_app. right. by left.
Qed.

Lemma elem_of_normalized_trimmed U l w :
  w ∈ normalized U l
  ↔ ∃ x, x ∈ l ∧ whitespace_trimmed (is_space U) (str_lower U x) w.
Proof.
  rewrite elem_of_normalized. by setoid_rewrite strip_iff_trimmed.
Qed.

Lemma elem_of_normalized_ascii U l w :
  ascii_faithful U → Forall (λ x, ascii_text x = true) l →
  w ∈ normalized U l
  ↔ ∃ x, x ∈ l ∧ whitespace_trimmed ascii_space (map ascii_lower x) w.
Proof.
  intros HU Hl. rewrite elem_of_normalized_trimmed.
  rewrite Forall_forall in Hl.
  assert (∀ x, x ∈ l →
               Forall (λ c, is_space U c = ascii_space c) (map ascii_lower x))
    as Hsp.
  { intros x Hx. apply Forall_forall. intros c Hc.
    apply (space_ascii U HU).
    pose proof (ascii_text_lower x (Hl x Hx)) as Hlow.
    unfold ascii_text in Hlow. rewrite forallb_forall in Hlow.
    apply Hlow. by apply list_elem_of_In. }
  split; intros (x & Hx & Hw); exists x; (split; [done|]).
  - rewrite (str_lower_ascii U HU) in Hw by auto.
    by apply (trimmed_ext (is_space U)); [apply Hsp|].
  - rewrite (str_lower_ascii U HU) by auto.
    apply (trimmed_ext ascii_space); [|done].
    eapply Forall_impl; [by apply Hsp|]. by intros c ->.
Qed.

(** *** The heap *)

Lemma view_store σ handler config self :
  view (store σ handler config self) handler = Some self.
Proof.
  unfold view, store. cbn [handlers configs]. rewrite lookup_insert_eq.
  cbn [mbind option_bind config_at ignore_list_lower_at].
  rewrite lookup_insert_eq. by destruct self.
Qed.

Lemma view_store_other σ handler config self h' o' :
  h' ≠ handler → handlers σ !! h' = Some o' →
  view (store σ handler config self) h'
  = if decide (config_at o' = config) then
      Some {| _config := _config self;
              _ignore_list_lower := ignore_list_lower_at o' |}
    else view σ h'.
Proof.
  intros Hne Ho. unfold view, store. cbn [handlers configs].
  rewrite lookup_insert_ne by done. rewrite Ho.
  cbn [mbind option_bind]. destruct (decide _) as [->|Hc].
  - by rewrite lookup_insert_eq.
  - by rewrite lookup_insert_ne.
Qed.

Lemma view_inv σ handler self :
  view σ handler = Some self →
  ∃ o, handlers σ !! handler = Some o
       ∧ configs σ !! config_at o = Some (_config self)
       ∧ ignore_list_lower_at o = _ignore_list_lower self.
Proof.
  unfold view. destruct (handlers σ !! handler) as [o|]; [|done].
  cbn [mbind option_bind].
  destruct (configs σ !! config_at o) as [c|] eqn:Hc; [|done].
  cbn [mbind option_bind]. intros [= <-]. by exists o.
Qed.

Lemma update_on_returned U σ handler self o new_list :
  view σ handler = Some self → handlers σ !! handler = Some o →
  returned (update_ignore_list_on U σ handler new_list)
  = Some (store σ handler (config_at o)
            (constructed U (Some (with_ignore_list (_config self) new_list)))).
Proof.
  intros Hv Ho. unfold update_ignore_list_on. rewrite Ho, Hv.
  cbn [mbind option_bind returned]. unfold mbind at 1, run_bind.
  rewrite update_outcome. done.
Qed.

Lemma construct_on_returned U σ c value :
  configs σ !! c = Some value →
  returned (construct_on U σ (Some c))
  = Some (fresh (dom (handlers σ)),
          store σ (fresh (dom (handlers σ))) c (constructed U (Some value))).
Proof.
  intros Hc. unfold construct_on. rewrite Hc.
  cbn [mbind option_bind returned]. unfold mbind at 1, run_bind.
  rewrite init_outcome. done.
Qed.

Lemma fresh_handler σ : handlers σ !! fresh (dom (handlers σ)) = None.
Proof. apply not_elem_of_dom, is_fresh. Qed.

(** Construction on a live configuration object: the new handler is at an
    address of its own, refers to the caller's object, which is left as it
    was, and is consistent; no other handler is touched. *)
Lemma construct_on_spec U σ c value :
  configs σ !! c = Some value →
  ∃ h σ',
    returned (construct_on U σ (Some c)) = Some (h, σ')
    ∧ handlers σ !! h = None
    ∧ view σ' h = Some (constructed U (Some value))
    ∧ consistent_at U σ' h
    ∧ configs σ' = configs σ
    ∧ (∀ h', h' ≠ h → handlers σ' !! h' = handlers σ !! h').
Proof.
  intros Hc. eexists _, _. split; [by apply construct_on_returned|].
  split; [apply fresh_handler|]. split; [apply view_store|].
  split; [eexists; split; [apply view_store|apply constructed_consistent]|].
  split.
  - cbn [store configs constructed _config default from_option].
    by apply insert_id.
  - intros h' Hne. cbn [store handlers]. by rewrite lookup_insert_ne.
Qed.

(** C7, as the code has it.  A replacement made through a handler leaves
    that handler with the new list and with the normalization of the new
    list as its derived set: the entries lower-cased, then without the
    whitespace at their two ends, as a set (on ASCII entries: the letters A
    to Z moved to a to z, blanks, tabs and line ends cut off).  Every later
    call on that handler answers from that set and the flags of the
    configuration, whatever list and set the handler had before.  The
    configured list is replaced for every handler on the same configuration
    object, the derived set of the handler called only: the other handlers
    stay consistent when none of them shares the configuration object.  A
    handler is consistent after its construction. *)
Theorem replacement_renormalizes U (HU : ascii_faithful U)
    σ handler self new_list :
  view σ handler = Some self →
  ∃ σ' self',
    returned (update_ignore_list_on U σ handler new_list) = Some σ'
    ∧ view σ' handler = Some self'
    ∧ _config self' = with_ignore_list (_config self) new_list
    ∧ _ignore_list_lower self' = normalized U new_list
    ∧ consistent_at U σ' handler
    ∧ (∀ w, w ∈ _ignore_list_lower self'
            ↔ ∃ x, x ∈ new_list
                   ∧ whitespace_trimmed (is_space U) (str_lower U x) w)
    ∧ (Forall (λ x, ascii_text x = true) new_list →
       ∀ w, w ∈ _ignore_list_lower self'
            ↔ ∃ x, x ∈ new_list
                   ∧ whitespace_trimmed ascii_space (map ascii_lower x) w)
    ∧ normalized U [lit " Yeah "; lit "YEAH"; lit "ok  "; lit "Uh-Huh"]
      = {[ lit "yeah"; lit "ok"; lit "uh-huh" ]}
    ∧ (∀ transcript speaking state,
         should_ignore_interrupt_on U σ' handler transcript speaking state
         = Some (should_ignore_interrupt U
                   {| _config := with_ignore_list (_config self) new_list;
                      _ignore_list_lower := normalized U new_list |}
                   transcript speaking state))
    ∧ (∀ transcript speaking,
         get_interrupt_reason_on U σ' handler transcript speaking
         = Some (get_interrupt_reason U
                   {| _config := with_ignore_list (_config self) new_list;
                      _ignore_list_lower := normalized U new_list |}
                   transcript speaking))
    ∧ (∀ transcript speaking state, ∃ verdict,
         returned (should_ignore_interrupt_on U σ' handler transcript speaking
                     state) = Some verdict
         ∧ (verdict = true
            ↔ enabled (_config self) = true ∧ speaking = true
              ∧ ∃ words, outcome (_extract_words U transcript) = inr words
                         ∧ words ≠ []
                         ∧ Forall (λ w, w ∈ normalized U new_list) words))
    ∧ (∀ τ previous,
         view τ handler = Some previous →
         enabled (_config previous) = enabled (_config self) →
         min_interrupt_words (_config previous)
         = min_interrupt_words (_config self) →
         verbose_logging (_config previous) = verbose_logging (_config self) →
         ∃ τ', returned (update_ignore_list_on U τ handler new_list) = Some τ'
               ∧ view τ' handler = view σ' handler)
    ∧ (∀ o h' o' other,
         handlers σ !! handler = Some o → handlers σ !! h' = Some o' →
         h' ≠ handler → view σ h' = Some other →
         handlers σ' !! h' = Some o'
         ∧ view σ' h'
           = Some (if decide (config_at o' = config_at o) then
                     {| _config := with_ignore_list (_config self) new_list;
                        _ignore_list_lower := _ignore_list_lower other |}
                   else other))
    ∧ (sole_user σ handler →
       ∀ h', consistent_at U σ h' → consistent_at U σ' h')
    ∧ (∀ τ c value,
         configs τ !! c = Some value →
         ∃ h τ',
           returned (construct_on U τ (Some c)) = Some (h, τ')
           ∧ handlers τ !! h = None
           ∧ view τ' h = Some (constructed U (Some value))
           ∧ consistent_at U τ' h
           ∧ configs τ' = configs τ
           ∧ (∀ h', h' ≠ h → handlers τ' !! h' = handlers τ !! h')).
Proof.
  intros Hv. destruct (view_inv σ handler self Hv) as (o & Ho & Hc & Hset).
  set (self' := constructed U (Some (with_ignore_list (_config self) new_list))).
  exists (store σ handler (config_at o) self'), self'.
  assert (view (store σ handler (config_at o) self') handler = Some self')
    as Hv' by apply view_store.
  split; [by apply update_on_returned|]. split; [done|].
  split; [done|]. split; [done|].
  split; [by exists self'|].
  split; [intros w; apply elem_of_normalized_trimmed|].
  split; [intros Hl w; by apply elem_of_normalized_ascii|].
  split.
  { rewrite (normalized_ascii U) by done. by vm_compute. }
  split.
  { intros t sp st. unfold should_ignore_interrupt_on. by rewrite Hv'. }
  split.
  { intros t sp. unfold get_interrupt_reason_on. by rewrite Hv'. }
  split.
  { intros t sp st. unfold should_ignore_interrupt_on. rewrite Hv'.
    cbn [mbind option_bind returned].
    destruct (classify_returns U self' t sp st) as [b Hb]. exists b.
    rewrite Hb. split; [done|].
    pose proof (verdict_true_iff U self' t sp st) as Hiff.
    rewrite Hb in Hiff. split.
    - intros ->. by apply (proj1 Hiff).
    - intros Hw. by injection (proj2 Hiff Hw). }
  split.
  { intros τ previous Hτ He Hm Hl.
    destruct (view_inv τ handler previous Hτ) as (o2 & Ho2 & _ & _).
    eexists. split; [by apply update_on_returned|].
    rewrite !view_store. subst self'. f_equal.
    unfold constructed, with_ignore_list. cbn [default from_option].
    by rewrite He, Hm, Hl. }
  split.
  { intros o1 h' o' other Ho1 Ho' Hne Hother.
    rewrite Ho in Ho1. injection Ho1 as <-.
    split; [cbn [store handlers]; by rewrite lookup_insert_ne|].
    rewrite (view_store_other _ _ _ _ h' o') by done.
    destruct (view_inv σ h' other Hother) as (o2 & Ho2 & _ & Hset2).
    rewrite Ho' in Ho2. injection Ho2 as <-.
    destruct (decide _); [by rewrite Hset2|done]. }
  split.
  { intros Hsole h' (other & Hother & Hcons).
    destruct (decide (h' = handler)) as [->|Hne]; [by exists self'|].
    destruct (view_inv σ h' other Hother) as (o' & Ho' & _ & _).
    exists other. split; [|done].
    rewrite (view_store_other _ _ _ _ h' o') by done.
    destruct (decide _) as [Hsame|]; [|done].
    by destruct (Hne (Hsole o h' o' Ho Ho' Hsame)). }
  intros τ c value. apply construct_on_spec.
Qed.

Lemma replacement_renormalizes_witness :
  (view (store one_config 1 1 (constructed latin1 None)) 1
   = Some (constructed latin1 None))
  ∧ ∃ σ' self',
      returned (update_ignore_list_on latin1
                  (store one_config 1 1 (constructed latin1 None)) 1
                  [lit " Stop "; lit "WAIT"; lit "stop"]) = Some σ'
      ∧ view σ' 1 = Some self'
      ∧ ignore_list (_config self') = [lit " Stop "; lit "WAIT"; lit "stop"]
      ∧ _ignore_list_lower self' = {[ lit "stop"; lit "wait" ]}
      ∧ returned (should_ignore_interrupt_on latin1 σ' 1
                    (PyStr (lit "Stop, wait")) true None) = Some true
      ∧ returned (should_ignore_interrupt_on latin1 σ' 1
                    (PyStr (lit "yeah")) true None) = Some false
      ∧ returned (get_interrupt_reason_on latin1 σ' 1
                    (PyStr (lit "yeah")) true)
        = Some contains_semantic_content.
Proof.
  split; [reflexivity|].
  destruct (replacement_renormalizes latin1 latin1_faithful
              (store one_config 1 1 (constructed latin1 None)) 1
              (constructed latin1 None)
              [lit " Stop "; lit "WAIT"; lit "stop"] eq_refl)
    as (σ' & self' & H1 & H2 & H3 & H4 & _ & _ & _ & _ & H9 & H10 & _).
  exists σ', self'. split; [exact H1|]. split; [exact H2|].
  split; [rewrite H3; reflexivity|].
  split; [rewrite H4; vm_compute; reflexivity|].
  split; [rewrite H9; vm_compute; reflexivity|].
  split; [rewrite H9; vm_compute; reflexivity|].
  rewrite H10. vm_compute. reflexivity.
Defined.

(** C7 as stated fails where two handlers are built on one configuration
    object: after a replacement made through the first, the second has the
    new list configured and still the set derived from the previous one, and
    its calls answer from that set. *)
Lemma shared_config_stale_set :
  ∃ h1 σ1 h2 σ2 σ3 self2,
    returned (construct_on latin1 one_config (Some 1%positive))
    = Some (h1, σ1)
    ∧ returned (construct_on latin1 σ1 (Some 1%positive)) = Some (h2, σ2)
    ∧ consistent_at latin1 σ2 h1
    ∧ consistent_at latin1 σ2 h2
    ∧ returned (update_ignore_list_on latin1 σ2 h1 [lit "stop"]) = Some σ3
    ∧ consistent_at latin1 σ3 h1
    ∧ view σ3 h2 = Some self2
    ∧ ignore_list (_config self2) = [lit "stop"]
    ∧ _ignore_list_lower self2 = normalized latin1 (ignore_list default_config)
    ∧ lit "yeah" ∈ _ignore_list_lower self2
    ∧ (lit "yeah" ∉ normalized latin1 (ignore_list (_config self2)))
    ∧ ¬ consistent_at latin1 σ3 h2
    ∧ returned (should_ignore_interrupt_on latin1 σ3 h2
                  (PyStr (lit "yeah")) true None) = Some true
    ∧ returned (get_interrupt_reason_on latin1 σ3 h2
                  (PyStr (lit "yeah")) true)
      = Some passive_acknowledgement_ignored_agent_speaking
    ∧ returned (should_ignore_interrupt_on latin1 σ3 h2
                  (PyStr (lit "stop")) true None) = Some false.
Proof.
  assert (lit "yeah" ∈ normalized latin1 (ignore_list default_config))
    as Hin by (apply (bool_decide_unpack _); vm_compute; exact I).
  assert (lit "yeah" ∉ normalized latin1 [lit "stop"])
    as Hout by (apply (bool_decide_unpack _); vm_compute; exact I).
  eexists _, _, _, _, _,
    {| _config := with_ignore_list default_config [lit "stop"];
       _ignore_list_lower := normalized latin1 (ignore_list default_config) |}.
  split; [vm_compute; reflexivity|].
  split; [vm_compute; reflexivity|].
  split; [eexists; split; [vm_compute; reflexivity|reflexivity]|].
  split; [eexists; split; [vm_compute; reflexivity|reflexivity]|].
  split; [vm_compute; reflexivity|].
  split; [eexists; split; [vm_compute; reflexivity|reflexivity]|].
  split; [vm_compute; reflexivity|].
  split; [reflexivity|]. split; [reflexivity|].
  split; [exact Hin|]. split; [exact Hout|].
  split.
  { intros (self & Hview & Hcons).
    match type of Hview with
    | view ?σ ?h = _ =>
        assert (view σ h
                = Some {| _config := with_ignore_list default_config [lit "stop"];
                          _ignore_list_lower :=
                            normalized latin1 (ignore_list default_config) |})
          as Hstale by (vm_compute; reflexivity)
    end.
    rewrite Hstale in Hview. injection Hview as <-.
    unfold consistent in Hcons.
    cbn [_ignore_list_lower _config ignore_list with_ignore_list] in Hcons.
    apply Hout. rewrite <- Hcons. exact Hin. }
  split; [vm_compute; reflexivity|].
  split; [vm_compute; reflexivity|]. vm_compute. reflexivity.
Qed.

(** ** Totality *)

(** C8, as the code has it. The decision returns a boolean for every
    transcript, null included, and the reason reporter returns a reason for
    every text transcript, whatever its characters. *)
Theorem classify_explain_defined U self speaking state :
  (∀ transcript, ∃ b,
      outcome (should_ignore_interrupt U self transcript speaking state) = inr b)
  ∧ (∀ text, ∃ r,
        outcome (get_interrupt_reason U self (PyStr text) speaking) = inr r).
Proof.
  split.
  - intros [|text]; [rewrite classify_none | rewrite classify_outcome]; eauto.
  - intros text. rewrite explain_outcome. eauto.
Qed.

(** C8 as stated fails: on a null transcript the reason reporter raises,
    [None] having no [lower]. *)
Lemma explain_raises_on_null :
  ¬ ∃ r, outcome (get_interrupt_reason latin1 (constructed latin1 None)
                    PyNone true) = inr r.
Proof. intros [r Hr]. discriminate Hr. Qed.

(** ** What the verdict does not depend on *)



(** ** The default configuration and the hyphenated filler *)

Lemma tokens_are_words U transcript words w :
  outcome (_extract_words U transcript) = inr words → w ∈ words →
  Forall (λ c, is_word U c = true) w.
Proof.
  intros (s & -> & ->)%extract_words_inv Hw.
  pose proof (maximal_runs_words _ _ _ (extract_words_runs U s)) as Hall.
  rewrite Forall_forall in Hall. by destruct (Hall w Hw).
Qed.

(** C10. The handler built without a configuration ignores "uh-huh" while
    the agent speaks: the tokens are "uh" and "huh", both entries of the
    default list; the entry "uh-huh" itself is in the derived set and is
    never a token. *)
Theorem default_handler_ignores_uh_huh U (HU : ascii_faithful U) state :
  ∃ self,
    outcome (init U None) = inr self
    ∧ outcome (should_ignore_interrupt U self (PyStr (lit "uh-huh")) true state)
      = inr true
    ∧ outcome (_extract_words U (PyStr (lit "uh-huh")))
      = inr [lit "uh"; lit "huh"]
    ∧ lit "uh" ∈ _ignore_list_lower self
    ∧ lit "huh" ∈ _ignore_list_lower self
    ∧ lit "uh-huh" ∈ _ignore_list_lower self
    ∧ ∀ transcript words,
        outcome (_extract_words U transcript) = inr words →
        lit "uh-huh" ∉ words.
Proof.
  exists (constructed U None). split; [apply init_outcome|].
  rewrite (constructed_default U HU).
  assert (findall (is_word U) (str_lower U (lit "uh-huh"))
          = [lit "uh"; lit "huh"]) as Htok.
  { rewrite (tokens_ascii U HU) by reflexivity. vm_compute. reflexivity. }
  split; [|split; [|split; [|split; [|split]]]].
  - rewrite classify_outcome, Htok. vm_compute. reflexivity.
  - simpl. by rewrite Htok.
  - vm_compute. reflexivity.
  - vm_compute. reflexivity.
  - vm_compute. reflexivity.
  - intros transcript words Hwords Hin.
    pose proof (tokens_are_words U _ _ _ Hwords Hin) as Hall.
    rewrite Forall_forall in Hall.
    assert (is_word U 45 = true) as Hhyphen.
    { apply Hall. apply list_elem_of_In. vm_compute. tauto. }
    rewrite (word_ascii U HU) in Hhyphen by reflexivity. discriminate Hhyphen.
Qed.

Lemma default_handler_ignores_uh_huh_witness :
  ∃ self,
    outcome (init latin1 None) = inr self
    ∧ outcome (should_ignore_interrupt latin1 self (PyStr (lit "uh-huh")) true
                 None) = inr true
    ∧ outcome (_extract_words latin1 (PyStr (lit "uh-huh")))
      = inr [lit "uh"; lit "huh"]
    ∧ lit "uh" ∈ _ignore_list_lower self
    ∧ lit "huh" ∈ _ignore_list_lower self
    ∧ lit "uh-huh" ∈ _ignore_list_lower self
    ∧ ∀ transcript words,
        outcome (_extract_words latin1 transcript) = inr words →
        lit "uh-huh" ∉ words.
Proof. exact (default_handler_ignores_uh_huh latin1 latin1_faithful None). Defined.

(** ** The reason against the verdict *)

(** X7. With the handler enabled, the reason and the verdict agree on every
    text transcript. *)
Lemma explain_agrees_when_enabled U self text speaking state :
  enabled (_config self) = true →
  (outcome (get_interrupt_reason U self (PyStr text) speaking)
   = inr contains_semantic_content
   ↔ outcome (should_ignore_interrupt U self (PyStr text) speaking state)
     = inr false
     ∧ ∃ w, w ∈ findall (is_word U) (str_lower U text)
            ∧ w ∉ _ignore_list_lower self)
  ∧ (outcome (get_interrupt_reason U self (PyStr text) speaking)
     = inr passive_acknowledgement_ignored_agent_speaking
     ↔ outcome (should_ignore_interrupt U self (PyStr text) speaking state)
       = inr true).
Proof.
  intros Hen. rewrite explain_outcome, classify_outcome, Hen.
  rewrite <- has_non_filler_true. unfold verdict_of.
  destruct text as [|c text]; [by split; split; [| intros [_ ?] | |]|].
  cbn [truthy andb].
  destruct (findall _ _) as [|w ws]; [by split; split; [| intros [_ ?] | |]|].
  rewrite bool_decide_eq_false_2 by done.
  destruct (_has_non_filler_words self (w :: ws)), speaking;
    split; split; simpl; try done; try by intros [_ ?].
Qed.

(** C1 at a disabled handler: for "yeah" while the agent speaks the reason
    reads as ignored, the verdict is to respond. *)
Theorem explain_ignored_while_disabled :
  outcome (get_interrupt_reason latin1
             (constructed latin1 (Some disabled_config))
             (PyStr (lit "yeah")) true)
  = inr passive_acknowledgement_ignored_agent_speaking
  ∧ outcome (should_ignore_interrupt latin1
               (constructed latin1 (Some disabled_config))
               (PyStr (lit "yeah")) true None)
    = inr false.
Proof. split; vm_compute; reflexivity. Qed.

(** * Further properties *)

(** ** The verdict, exactly *)

(** X1. The decision always returns a boolean, and that boolean is [True]
    exactly when the handler is enabled, the agent is speaking, and the
    transcript has at least one token and filler tokens only; in every other
    case, a null transcript included, it is [False]. *)
Theorem ignored_exactly_when U self transcript speaking state :
  ∃ verdict,
    outcome (should_ignore_interrupt U self transcript speaking state)
    = inr verdict
    ∧ (verdict = true
       ↔ enabled (_config self) = true ∧ speaking = true
         ∧ ∃ words, outcome (_extract_words U transcript) = inr words
                    ∧ words ≠ []
                    ∧ Forall (λ w, w ∈ _ignore_list_lower self) words)
    ∧ (verdict = false
       ↔ enabled (_config self) = false ∨ speaking = false
         ∨ transcript = PyNone
         ∨ outcome (_extract_words U transcript) = inr []
         ∨ ∃ words w, outcome (_extract_words U transcript) = inr words
                      ∧ w ∈ words ∧ w ∉ _ignore_list_lower self).
Proof.
  destruct (classify_returns U self transcript speaking state) as [b Hb].
  exists b. split; [done|].
  assert (b = true
          ↔ enabled (_config self) = true ∧ speaking = true
            ∧ ∃ words, outcome (_extract_words U transcript) = inr words
                       ∧ words ≠ []
                       ∧ Forall (λ w, w ∈ _ignore_list_lower self) words)
    as Htrue.
  { rewrite <- verdict_true_iff, Hb. split; [by intros -> | by intros [= ->]]. }
  split; [done|]. destruct b.
  - split; [done|]. apply proj1 in Htrue.
    destruct (Htrue eq_refl) as (He & Hs & ws & Hws & Hne & Hall).
    intros [?|[?|[->|[Hnil|(ws' & w & Hws' & Hin & Hout)]]]].
    + congruence.
    + congruence.
    + by destruct ws.
    + rewrite Hws in Hnil. by injection Hnil as ->.
    + rewrite Hws in Hws'. injection Hws' as <-.
      rewrite Forall_forall in Hall. by destruct (Hout (Hall w Hin)).
  - split; [intros _|done].
    destruct (enabled (_config self)) eqn:He; [|by left].
    destruct speaking; [|by right; left].
    destruct transcript as [|text]; [by right; right; left|].
    right. right. right.
    destruct (findall (is_word U) (str_lower U text)) as [|w ws] eqn:Hf;
      [left; simpl; by rewrite Hf|].
    right. exists (w :: ws).
    destruct (_has_non_filler_words self (w :: ws)) eqn:Hn.
    + apply has_non_filler_true in Hn as (w' & Hin & Hout).
      exists w'. simpl. by rewrite Hf.
    + exfalso. apply has_non_filler_false in Hn.
      assert (false = true) as E; [|done]. apply Htrue.
      split; [done|]. split; [done|]. exists (w :: ws). simpl.
      by rewrite Hf.
Qed.

Lemma has_non_filler_ext (self1 self2 : InterruptionHandler) words :
  Forall (λ w, w ∈ _ignore_list_lower self1 ↔ w ∈ _ignore_list_lower self2)
    words →
  _has_non_filler_words self1 words = _has_non_filler_words self2 words.
Proof.
  induction 1 as [|w words Hw _ IH]; [done|]. simpl. rewrite IH.
  apply (f_equal (λ b : bool, if b then true else _)).
  apply bool_decide_ext. by rewrite Hw.
Qed.

(** X2. A handler with more fillers ignores whatever a handler with fewer
    ignores: adding entries never turns an ignore into a respond. *)
Theorem more_fillers_keep_ignore U self1 self2 transcript speaking state :
  enabled (_config self1) = enabled (_config self2) →
  _ignore_list_lower self1 ⊆ _ignore_list_lower self2 →
  outcome (should_ignore_interrupt U self1 transcript speaking state)
  = inr true →
  outcome (should_ignore_interrupt U self2 transcript speaking state)
  = inr true.
Proof.
  intros Hen Hsub. rewrite !verdict_true_iff.
  intros (He & Hs & ws & Hws & Hne & Hall). rewrite <- Hen.
  split; [done|]. split; [done|]. exists ws. split; [done|]. split; [done|].
  eapply Forall_impl; [exact Hall|]. intros w Hw. by apply Hsub.
Qed.

Lemma more_fillers_keep_ignore_witness :
  outcome (should_ignore_interrupt latin1
             (constructed latin1 (Some (with_ignore_list default_config
                                          (map lit ["yeah"; "ok"; "sure"]%string))))
             (PyStr (lit "ok yeah")) true None) = inr true.
Proof.
  apply (more_fillers_keep_ignore latin1
           (constructed latin1 (Some (with_ignore_list default_config
                                        (map lit ["yeah"; "ok"]%string))))).
  - reflexivity.
  - apply (bool_decide_unpack _). vm_compute. exact I.
  - vm_compute. reflexivity.
Defined.

(** ** Entries that no token can equal *)

Lemma same_fillers_same_answers U (self1 self2 : InterruptionHandler) text :
  _config self1 = _config self2 →
  Forall (λ w, w ∈ _ignore_list_lower self1 ↔ w ∈ _ignore_list_lower self2)
    (findall (is_word U) (str_lower U text)) →
  (∀ speaking state,
     outcome (should_ignore_interrupt U self1 (PyStr text) speaking state)
     = outcome (should_ignore_interrupt U self2 (PyStr text) speaking state))
  ∧ (∀ speaking,
       outcome (get_interrupt_reason U self1 (PyStr text) speaking)
       = outcome (get_interrupt_reason U self2 (PyStr text) speaking)).
Proof.
  intros Hc Hw. apply has_non_filler_ext in Hw. split.
  - intros speaking state. rewrite !classify_outcome. unfold verdict_of.
    by rewrite Hw, Hc.
  - intros speaking. rewrite !explain_outcome.
    destruct (findall _ _) as [|w ws]; [done|]. by rewrite Hw.
Qed.

(** X3. Entries of the derived set that are empty or hold a character outside
    [\w] (a hyphen, an inner blank) are never consulted with success:
    dropping them changes no verdict and no reason. *)
Theorem unmatchable_entries_inert (U : unicode_db) (self : InterruptionHandler)
    (dead : gset str) (text : str) (speaking : bool) (state : option str) :
  (∀ e, e ∈ dead → e = [] ∨ ∃ c, c ∈ e ∧ is_word U c = false) →
  outcome (should_ignore_interrupt U
             {| _config := _config self;
                _ignore_list_lower := _ignore_list_lower self ∖ dead |}
             (PyStr text) speaking state)
  = outcome (should_ignore_interrupt U self (PyStr text) speaking state)
  ∧ outcome (get_interrupt_reason U
               {| _config := _config self;
                  _ignore_list_lower := _ignore_list_lower self ∖ dead |}
               (PyStr text) speaking)
    = outcome (get_interrupt_reason U self (PyStr text) speaking).
Proof.
  intros Hdead.
  destruct (same_fillers_same_answers U
              {| _config := _config self;
                 _ignore_list_lower := _ignore_list_lower self ∖ dead |}
              self text) as [H1 H2]; [done| |by split].
  pose proof (maximal_runs_words _ _ _ (findall_runs (is_word U)
                                          (str_lower U text))) as Hall.
  eapply Forall_impl; [exact Hall|]. simpl. intros w [Hne Hw].
  rewrite elem_of_difference. split; [by intros [? _]|].
  intros Hin. split; [done|]. intros Hd.
  destruct (Hdead w Hd) as [->|(c & Hc & Hnw)]; [done|].
  rewrite Forall_forall in Hw. specialize (Hw c Hc). congruence.
Qed.

Lemma unmatchable_entries_inert_witness :
  outcome (should_ignore_interrupt latin1
             {| _config := default_config;
                _ignore_list_lower :=
                  _ignore_list_lower (constructed latin1 None)
                  ∖ {[ lit "uh-huh" ]} |}
             (PyStr (lit "uh-huh")) true None)
  = outcome (should_ignore_interrupt latin1 (constructed latin1 None)
               (PyStr (lit "uh-huh")) true None).
Proof.
  apply (unmatchable_entries_inert latin1 (constructed latin1 None)
           {[ lit "uh-huh" ]} (lit "uh-huh") true None).
  intros e He. apply elem_of_singleton in He. right. exists 45.
  rewrite He. split; [|reflexivity].
  apply list_elem_of_In. vm_compute. tauto.
Defined.

(** ** The empty filler list *)

(** X4. After [update_ignore_list([])] nothing is ignored, and every transcript
    with a token is reported as semantic content. *)
Theorem empty_list_never_ignores U self :
  ∃ self', outcome (update_ignore_list U self []) = inr self'
    ∧ (∀ transcript speaking state,
         outcome (should_ignore_interrupt U self' transcript speaking state)
         = inr false)
    ∧ (∀ text speaking,
         outcome (get_interrupt_reason U self' (PyStr text) speaking)
         = inr (if bool_decide (findall (is_word U) (str_lower U text) = [])
                then empty_transcript else contains_semantic_content)).
Proof.
  eexists. split; [apply update_outcome|].
  assert (∀ w ws, _has_non_filler_words
                    (constructed U (Some (with_ignore_list (_config self) [])))
                    (w :: ws) = true) as Hnf.
  { intros w ws. simpl. rewrite bool_decide_eq_true_2; [done|].
    unfold normalized. simpl. apply not_elem_of_empty. }
  split.
  - intros [|text] speaking state; [apply classify_none|].
    rewrite classify_outcome. unfold verdict_of.
    destruct (findall _ _) as [|w ws].
    + simpl. by rewrite !andb_false_r.
    + rewrite Hnf. simpl. by rewrite !andb_false_r.
  - intros text speaking. rewrite explain_outcome.
    destruct (findall _ _) as [|w ws]; [done|]. by rewrite Hnf.
Qed.

(** ** Order and repetition in the filler list *)

Lemma same_set_same_answers U (self1 self2 : InterruptionHandler) transcript :
  enabled (_config self1) = enabled (_config self2) →
  _ignore_list_lower self1 = _ignore_list_lower self2 →
  (∀ speaking state,
     outcome (should_ignore_interrupt U self1 transcript speaking state)
     = outcome (should_ignore_interrupt U self2 transcript speaking state))
  ∧ (∀ speaking,
       outcome (get_interrupt_reason U self1 transcript speaking)
       = outcome (get_interrupt_reason U self2 transcript speaking)).
Proof.
  intros Hen Hset. destruct transcript as [|text].
  - split; intros; [by rewrite !classify_none | done].
  - assert (∀ ws, _has_non_filler_words self1 ws
                  = _has_non_filler_words self2 ws) as Hw.
    { intros ws. apply has_non_filler_ext, Forall_forall.
      intros w _. by rewrite Hset. }
    split.
    + intros speaking state. rewrite !classify_outcome. unfold verdict_of.
      by rewrite Hw, Hen.
    + intros speaking. rewrite !explain_outcome.
      destruct (findall _ _) as [|w ws]; [done|]. by rewrite Hw.
Qed.

(** X5. Two lists with the same entries, in whatever order and however often
    repeated, give the same derived set, the same verdicts and the same
    reasons after [update_ignore_list]. *)
Theorem same_entries_same_handler U self (list1 list2 : list str) :
  (∀ x, x ∈ list1 ↔ x ∈ list2) →
  ∃ self1 self2,
    outcome (update_ignore_list U self list1) = inr self1
    ∧ outcome (update_ignore_list U self list2) = inr self2
    ∧ _ignore_list_lower self1 = _ignore_list_lower self2
    ∧ ∀ transcript speaking state,
        outcome (should_ignore_interrupt U self1 transcript speaking state)
        = outcome (should_ignore_interrupt U self2 transcript speaking state)
        ∧ outcome (get_interrupt_reason U self1 transcript speaking)
          = outcome (get_interrupt_reason U self2 transcript speaking).
Proof.
  intros Hsame. do 2 eexists.
  split; [apply update_outcome|]. split; [apply update_outcome|].
  assert (normalized U list1 = normalized U list2) as Hset.
  { apply set_eq. intros w. rewrite !elem_of_normalized.
    split; intros (x & Hx & ->); exists x; split; try done; by apply Hsame. }
  split; [done|]. intros transcript speaking state.
  destruct (same_set_same_answers U
              (constructed U (Some (with_ignore_list (_config self) list1)))
              (constructed U (Some (with_ignore_list (_config self) list2)))
              transcript) as [H1 H2]; [done..|].
  split; [apply H1 | apply H2].
Qed.

Lemma same_entries_same_handler_witness :
  ∃ self1 self2,
    outcome (update_ignore_list latin1 (constructed latin1 None)
               (map lit ["ok"; "yeah"; "ok"]%string)) = inr self1
    ∧ outcome (update_ignore_list latin1 (constructed latin1 None)
                 (map lit ["yeah"; "ok"]%string)) = inr self2
    ∧ _ignore_list_lower self1 = _ignore_list_lower self2
    ∧ ∀ transcript speaking state,
        outcome (should_ignore_interrupt latin1 self1 transcript speaking state)
        = outcome (should_ignore_interrupt latin1 self2 transcript speaking
                     state)
        ∧ outcome (get_interrupt_reason latin1 self1 transcript speaking)
          = outcome (get_interrupt_reason latin1 self2 transcript speaking).
Proof.
  apply (same_entries_same_handler latin1 (constructed latin1 None)
           (map lit ["ok"; "yeah"; "ok"]%string)
           (map lit ["yeah"; "ok"]%string)).
  intros x. rewrite !list_elem_of_In. simpl. tauto.
Defined.

(** ** A disabled handler *)

Lemma perform_flags U self c :
  enabled (_config (perform U self c).1) = enabled (_config self)
  ∧ verbose_logging (_config (perform U self c).1)
    = verbose_logging (_config self)
  ∧ min_interrupt_words (_config (perform U self c).1)
    = min_interrupt_words (_config self).
Proof.
  destruct c as [t s a|t s|l]; simpl; [done..|]. by rewrite update_outcome.
Qed.

Lemma perform_disabled U self c v :
  enabled (_config self) = false → (perform U self c).2 = Verdict v →
  v = inr false.
Proof.
  intros Hen. destruct c as [t s a|t s|l]; simpl.
  - intros [= <-]. unfold should_ignore_interrupt. by rewrite Hen.
  - done.
  - by rewrite update_outcome.
Qed.

(** X6. No sequence of calls on a disabled handler re-enables it or makes it
    ignore anything: [update_ignore_list] keeps the flag, and every verdict
    along the way is to respond. *)
Theorem disabled_stays_disabled U self calls :
  enabled (_config self) = false →
  enabled (_config (session U self calls).1) = false
  ∧ Forall (λ a, ∀ v, a = Verdict v → v = inr false) (session U self calls).2.
Proof.
  revert self. induction calls as [|c calls IH]; intros self Hen.
  - split; [done | constructor].
  - cbn [session].
    pose proof (perform_flags U self c) as [Hf _].
    pose proof (perform_disabled U self c) as Hv.
    destruct (perform U self c) as [self' a]. simpl in Hf, Hv.
    rewrite Hen in Hf. destruct (IH self' Hf) as [IH1 IH2].
    destruct (session U self' calls) as [self'' answers]. simpl in *.
    split; [done|]. constructor; [|done]. intros v ->. by apply Hv.
Qed.

Lemma disabled_stays_disabled_witness :
  Forall (λ a, ∀ v, a = Verdict v → v = inr false)
    (session latin1 (constructed latin1 (Some disabled_config))
       [Classify (PyStr (lit "yeah")) true None;
        Replace (map lit ["yeah"; "sure"]%string);
        Classify (PyStr (lit "sure")) true None]).2.
Proof.
  apply (disabled_stays_disabled latin1
           (constructed latin1 (Some disabled_config))).
  reflexivity.
Defined.

Lemma explain_agrees_when_enabled_witness :
  outcome (get_interrupt_reason latin1 (constructed latin1 None)
             (PyStr (lit "yeah")) true)
  = inr passive_acknowledgement_ignored_agent_speaking
  ↔ outcome (should_ignore_interrupt latin1 (constructed latin1 None)
               (PyStr (lit "yeah")) true None) = inr true.
Proof.
  exact (proj2 (explain_agrees_when_enabled latin1 (constructed latin1 None)
                  (lit "yeah") true None eq_refl)).
Defined.

(** ** What is logged *)

Lemma classify_logged U self text speaking state :
  logged (should_ignore_interrupt U self (PyStr text) speaking state)
  = if enabled (_config self) && truthy (PyStr text)
       && verbose_logging (_config self)
    then
      let words := findall (is_word U) (str_lower U text) in
      msg_interrupt_check (PyStr text) speaking words state
      :: (if _has_non_filler_words self words then [msg_non_filler words]
          else match words with
               | [] => []
               | _ :: _ => if speaking then [msg_ignore] else [msg_respond]
               end)
    else [].
Proof.
  unfold should_ignore_interrupt.
  destruct (enabled (_config self)); [|done].
  destruct text as [|c text]; [done|]. cbn [negb orb andb truthy].
  rewrite extract_words_str. cbn zeta.
  generalize (findall (is_word U) (str_lower U (c :: text))). intros words.
  destruct (verbose_logging (_config self)), words as [|w ws]; cbn;
    try done;
    destruct (bool_decide _); cbn; try done;
    destruct (_has_non_filler_words _ _); cbn; try done;
    by destruct speaking.
Qed.

Lemma classify_logged_none U self speaking state :
  logged (should_ignore_interrupt U self PyNone speaking state) = [].
Proof. unfold should_ignore_interrupt. by destruct (enabled _). Qed.

Lemma explain_logged U self transcript speaking :
  logged (get_interrupt_reason U self transcript speaking) = [].
Proof.
  destruct transcript as [|text]; [done|].
  unfold get_interrupt_reason. rewrite extract_words_str.
  destruct (findall _ _) as [|w ws]; [done|]. cbn.
  destruct (bool_decide _); cbn; [done|].
  destruct (_has_non_filler_words _ _); [done|]. by destruct speaking.
Qed.

(** X8. With [verbose_logging] off the decision logs nothing, whatever the
    transcript; the reason reporter never logs; [update_ignore_list] still
    logs its one record, the new derived set. *)
Theorem quiet_unless_verbose U self :
  verbose_logging (_config self) = false →
  (∀ transcript speaking state,
     logged (should_ignore_interrupt U self transcript speaking state) = [])
  ∧ (∀ transcript speaking,
       logged (get_interrupt_reason U self transcript speaking) = [])
  ∧ (∀ new_list,
       logged (update_ignore_list U self new_list)
       = [msg_updated (normalized U new_list)]).
Proof.
  intros Hv. split; [|split].
  - intros [|text] speaking state; [apply classify_logged_none|].
    rewrite classify_logged, Hv. by rewrite andb_false_r.
  - intros. apply explain_logged.
  - intros new_list. unfold update_ignore_list, _normalize_ignore_list.
    simpl. by rewrite Hv.
Qed.

Lemma quiet_unless_verbose_witness :
  logged (should_ignore_interrupt latin1 (constructed latin1 None)
            (PyStr (lit "yeah but")) true None) = []
  ∧ logged (update_ignore_list latin1 (constructed latin1 None) [lit "yep"])
    = [msg_updated (normalized latin1 [lit "yep"])].
Proof.
  destruct (quiet_unless_verbose latin1 (constructed latin1 None) eq_refl)
    as (H1 & _ & H3).
  split; [apply H1 | apply H3].
Defined.

(** X9. With [verbose_logging] on, the log tells the verdict: the ignore record
    is written exactly when the verdict is to ignore, and nothing at all is
    written exactly when the guard returns early, on a disabled handler or
    a null or empty transcript. *)
Theorem verbose_log_tells_verdict U self transcript speaking state :
  verbose_logging (_config self) = true →
  (msg_ignore ∈ logged (should_ignore_interrupt U self transcript speaking
                          state)
   ↔ outcome (should_ignore_interrupt U self transcript speaking state)
     = inr true)
  ∧ (logged (should_ignore_interrupt U self transcript speaking state) = []
     ↔ enabled (_config self) = false ∨ truthy transcript = false).
Proof.
  intros Hv. destruct transcript as [|text].
  - rewrite classify_logged_none, classify_none. split.
    + split; [by intros ?%elem_of_nil | done].
    + split; [by right | done].
  - rewrite classify_logged, classify_outcome, Hv. unfold verdict_of.
    destruct (enabled (_config self)); cbn [andb];
      [|split; [split; [by intros ?%elem_of_nil | done] | split; [by left | done]]].
    destruct text as [|c text]; cbn [truthy andb];
      [split; [split; [by intros ?%elem_of_nil | done] | split; [by right | done]]|].
    cbn zeta. destruct (findall _ _) as [|w ws] eqn:Hf.
    + cbn. split; [|split; [done | by intros [|]]].
      split; [|done]. intros [?|?%elem_of_nil]%elem_of_cons; done.
    + rewrite bool_decide_eq_false_2 by done.
      destruct (_has_non_filler_words self (w :: ws)), speaking; cbn;
        (split; [|split; [done | by intros [|]]]);
        rewrite ?elem_of_cons, ?elem_of_nil; split; try done;
        try (intros [?|[?|?]]; done); try (intros _; right; by left).
Qed.

Lemma verbose_log_tells_verdict_witness :
  msg_ignore ∈ logged (should_ignore_interrupt latin1
                         (constructed latin1
                            (Some {| ignore_list := ignore_list default_config;
                                     enabled := true;
                                     min_interrupt_words := 1;
                                     verbose_logging := true |}))
                         (PyStr (lit "yeah")) true None).
Proof.
  apply (verbose_log_tells_verdict latin1
           (constructed latin1
              (Some {| ignore_list := ignore_list default_config;
                       enabled := true;
                       min_interrupt_words := 1;
                       verbose_logging := true |}))
           (PyStr (lit "yeah")) true None eq_refl).
  vm_compute. reflexivity.
Defined.

(** ** Tokens of a text in two parts *)

Lemma runs_separators (word : cp → bool) sep s ws :
  Forall (λ c, word c = false) sep → maximal_runs word s ws →
  maximal_runs word (sep ++ s) ws.
Proof.
  induction 1 as [|c sep Hc _ IH]; [done|]. intros Hr. simpl.
  apply runs_separator; auto.
Qed.

Lemma runs_app (word : cp → bool) s ws t wt :
  maximal_runs word s ws → maximal_runs word t wt →
  word_at word (head t) = false →
  maximal_runs word (s ++ t) (ws ++ wt).
Proof.
  intros Hs Ht Hhead.
  induction Hs as [sep Hsep|sep w rest ws Hsep Hw Hall Hrest Hr IH].
  - by apply runs_separators.
  - rewrite <- !app_assoc. simpl. apply runs_word; auto.
    by destruct rest.
Qed.

Lemma findall_app (word : cp → bool) s t :
  word_at word (head t) = false →
  findall word (s ++ t) = findall word s ++ findall word t.
Proof.
  intros Hhead. apply (maximal_runs_unique word (s ++ t));
    [apply findall_runs|].
  apply runs_app; [apply findall_runs.. | done].
Qed.

Lemma findall_separator (word : cp → bool) c t :
  word c = false → findall word (c :: t) = findall word t.
Proof.
  intros Hc. apply (maximal_runs_unique word (c :: t)); [apply findall_runs|].
  apply runs_separator; [done | apply findall_runs].
Qed.

Lemma has_non_filler_app self ws wt :
  _has_non_filler_words self (ws ++ wt)
  = _has_non_filler_words self ws || _has_non_filler_words self wt.
Proof.
  induction ws as [|w ws IH]; [done|]. simpl. rewrite IH.
  by destruct (bool_decide _).
Qed.

Lemma tokens_ascii_parts U s c t :
  ascii_faithful U →
  ascii_text s = true → is_ascii c = true → ascii_word c = false →
  ascii_text t = true →
  findall (is_word U) (str_lower U (s ++ c :: t))
  = findall (is_word U) (str_lower U s) ++ findall (is_word U) (str_lower U t).
Proof.
  intros HU Hs Hc Hw Ht.
  assert (ascii_text (s ++ c :: t) = true) as Hst.
  { unfold ascii_text in *. rewrite forallb_app. simpl. by rewrite Hs, Hc, Ht. }
  rewrite !(tokens_ascii U HU) by done.
  rewrite map_app. simpl.
  rewrite findall_app by (simpl; by rewrite ascii_word_lower).
  f_equal. apply findall_separator. by rewrite ascii_word_lower.
Qed.

(** X10. On ASCII text, the tokens of two parts joined by a separator character
    are the tokens of the first part followed by those of the second: no
    token spans the separator and none is lost. *)
Theorem tokens_across_separator U s c t :
  ascii_faithful U →
  ascii_text s = true → is_ascii c = true → ascii_word c = false →
  ascii_text t = true →
  ∃ ws wt,
    outcome (_extract_words U (PyStr s)) = inr ws
    ∧ outcome (_extract_words U (PyStr t)) = inr wt
    ∧ outcome (_extract_words U (PyStr (s ++ c :: t))) = inr (ws ++ wt).
Proof.
  intros HU Hs Hc Hw Ht. do 2 eexists. split; [done|]. split; [done|].
  simpl. f_equal. by apply tokens_ascii_parts.
Qed.

Lemma tokens_across_separator_witness :
  ∃ ws wt,
    outcome (_extract_words latin1 (PyStr (lit "Yeah ok"))) = inr ws
    ∧ outcome (_extract_words latin1 (PyStr (lit "but WAIT"))) = inr wt
    ∧ outcome (_extract_words latin1
                 (PyStr (lit "Yeah ok" ++ 44 :: lit "but WAIT")))
      = inr (ws ++ wt).
Proof.
  apply (tokens_across_separator latin1 (lit "Yeah ok") 44 (lit "but WAIT"));
    [apply latin1_faithful | reflexivity..].
Defined.

(** X11. On ASCII text, an utterance made of two parts that both have tokens is
    ignored exactly when each part alone would be. *)
Theorem joined_utterance_verdict U self s c t speaking state b1 b2 :
  ascii_faithful U →
  ascii_text s = true → is_ascii c = true → ascii_word c = false →
  ascii_text t = true →
  outcome (_extract_words U (PyStr s)) ≠ inr [] →
  outcome (_extract_words U (PyStr t)) ≠ inr [] →
  outcome (should_ignore_interrupt U self (PyStr s) speaking state) = inr b1 →
  outcome (should_ignore_interrupt U self (PyStr t) speaking state) = inr b2 →
  outcome (should_ignore_interrupt U self (PyStr (s ++ c :: t)) speaking state)
  = inr (b1 && b2).
Proof.
  intros HU Hs Hc Hw Ht Hns Hnt. rewrite !classify_outcome.
  rewrite (tokens_ascii_parts U s c t) by done.
  simpl in Hns, Hnt. unfold verdict_of. rewrite has_non_filler_app.
  destruct s as [|c1 s]; [done|]. destruct t as [|c2 t]; [done|].
  destruct (findall _ (str_lower U (c1 :: s))) as [|w1 ws1]; [done|].
  destruct (findall _ (str_lower U (c2 :: t))) as [|w2 ws2]; [done|].
  cbn [app truthy]. rewrite !bool_decide_eq_false_2 by done.
  generalize (_has_non_filler_words self (w1 :: ws1)).
  generalize (_has_non_filler_words self (w2 :: ws2)).
  intros n2 n1 [= <-] [= <-]. f_equal.
  by destruct (enabled _), n1, n2, speaking.
Qed.

Lemma joined_utterance_verdict_witness :
  outcome (should_ignore_interrupt latin1 (constructed latin1 None)
             (PyStr (lit "yeah ok" ++ 44 :: lit "but wait")) true None)
  = inr (true && false).
Proof.
  apply (joined_utterance_verdict latin1 (constructed latin1 None)
           (lit "yeah ok") 44 (lit "but wait") true None true false);
    [apply latin1_faithful | reflexivity | reflexivity | reflexivity
    | reflexivity | vm_compute; discriminate | vm_compute; discriminate
    | vm_compute; reflexivity | vm_compute; reflexivity].
Defined.

(** ** The standalone copy against the module's handler *)

Lemma standalone_has_non_filler (sa : Standalone.InterruptionHandlerStandalone)
    (self : InterruptionHandler) words :
  Standalone._ignore_list_lower sa = _ignore_list_lower self →
  Standalone._has_non_filler_words sa words = _has_non_filler_words self words.
Proof.
  intros Hset. induction words as [|w words IH]; [done|]. simpl.
  by rewrite IH, Hset.
Qed.

Lemma standalone_classify_outcome U sa text speaking :
  outcome (Standalone.should_ignore_interrupt U sa (PyStr text) speaking)
  = inr (truthy (PyStr text)
         && (negb (Standalone._has_non_filler_words sa
                     (findall (is_word U) (str_lower U text)))
             && negb (bool_decide (findall (is_word U) (str_lower U text) = []))
             && speaking)).
Proof.
  unfold Standalone.should_ignore_interrupt.
  destruct text as [|c text]; [done|]. cbn [truthy negb andb].
  change (Standalone._extract_words U (PyStr (c :: text)))
    with (mret (M:=run) (findall (is_word U) (str_lower U (c :: text)))).
  generalize (findall (is_word U) (str_lower U (c :: text))).
  intros words. unfold mbind, run_bind, mret, run_ret. cbn [outcome logged].
  destruct words as [|w ws]; [done|]. rewrite bool_decide_eq_false_2 by done.
  generalize (Standalone._has_non_filler_words sa (w :: ws)).
  intros n. by destruct n, speaking.
Qed.

Lemma standalone_explain_outcome U sa text speaking :
  outcome (Standalone.get_interrupt_reason U sa (PyStr text) speaking)
  = inr (match findall (is_word U) (str_lower U text) with
         | [] => empty_transcript
         | words =>
             if Standalone._has_non_filler_words sa words
             then contains_semantic_content
             else if speaking
                  then passive_acknowledgement_ignored_agent_speaking
                  else passive_acknowledgement_agent_silent
         end).
Proof.
  unfold Standalone.get_interrupt_reason.
  change (Standalone._extract_words U (PyStr text))
    with (mret (M:=run) (findall (is_word U) (str_lower U text))).
  generalize (findall (is_word U) (str_lower U text)).
  intros words. unfold mbind, run_bind, mret, run_ret. cbn [outcome logged].
  destruct words as [|w ws]; [done|].
  generalize (Standalone._has_non_filler_words sa (w :: ws)).
  intros n. by destruct n, speaking.
Qed.

(** X12. The standalone handler of the test file, built from a filler list,
    returns the verdict and the reason of the module's handler built from
    an enabled configuration with that list (the default list for both when
    none is given), on every transcript, and raises where it raises. *)
Theorem standalone_agrees U (config : option InterruptionHandlerConfig) :
  enabled (default default_config config) = true →
  ∃ sa,
    outcome (Standalone.init U (ignore_list <$> config)) = inr sa
    ∧ ∀ transcript speaking state,
        outcome (Standalone.should_ignore_interrupt U sa transcript speaking)
        = outcome (should_ignore_interrupt U (constructed U config) transcript
                     speaking state)
        ∧ outcome (Standalone.get_interrupt_reason U sa transcript speaking)
          = outcome (get_interrupt_reason U (constructed U config) transcript
                       speaking).
Proof.
  intros Hen.
  exists {| Standalone._ignore_list_lower :=
              _ignore_list_lower (constructed U config) |}.
  split; [by destruct config|]. intros [|text] speaking state.
  - split; [by rewrite classify_none | done].
  - rewrite classify_outcome, explain_outcome.
    rewrite standalone_classify_outcome, standalone_explain_outcome.
    change (enabled (_config (constructed U config)))
      with (enabled (default default_config config)). rewrite Hen.
    unfold verdict_of. split.
    + by rewrite (standalone_has_non_filler _ (constructed U config)).
    + destruct (findall _ _) as [|w ws]; [done|].
      by rewrite (standalone_has_non_filler _ (constructed U config)).
Qed.

Lemma standalone_agrees_witness :
  ∃ sa,
    outcome (Standalone.init latin1 None) = inr sa
    ∧ ∀ transcript speaking state,
        outcome (Standalone.should_ignore_interrupt latin1 sa transcript
                   speaking)
        = outcome (should_ignore_interrupt latin1 (constructed latin1 None)
                     transcript speaking state)
        ∧ outcome (Standalone.get_interrupt_reason latin1 sa transcript
                     speaking)
          = outcome (get_interrupt_reason latin1 (constructed latin1 None)
                       transcript speaking).
Proof. exact (standalone_agrees latin1 None eq_refl). Defined.

(** ** The default handler *)

Lemma get_default_handler_installed U m r :
  _default_handler m = Some r → get_default_handler U m = mret (r, m).
Proof. unfold get_default_handler. by intros ->. Qed.

Lemma get_default_handler_fresh U m :
  _default_handler m = None →
  outcome (get_default_handler U m)
  = inr (fresh (dom (objects m)),
         {| objects := <[fresh (dom (objects m)) := constructed U None]>
                         (objects m);
            _default_handler := Some (fresh (dom (objects m))) |}).
Proof.
  unfold get_default_handler, new_handler, init, _normalize_ignore_list.
  intros ->. done.
Qed.

Lemma fresh_unused (m : module_state) :
  objects m !! fresh (dom (objects m)) = None.
Proof. apply not_elem_of_dom, is_fresh. Qed.

(** X13. [get_default_handler] builds the default handler once: the first call
    on a module without one adds a handler equal to [InterruptionHandler()]
    at an unused address and leaves every other object as it was; any later
    call returns that same reference, builds and logs nothing, and leaves
    the state as it is. *)
Theorem default_handler_built_once U m :
  valid m →
  ∃ r m',
    outcome (get_default_handler U m) = inr (r, m')
    ∧ valid m'
    ∧ _default_handler m' = Some r
    ∧ (∀ r0 self, objects m !! r0 = Some self → objects m' !! r0 = Some self)
    ∧ (_default_handler m = None →
       objects m !! r = None ∧ objects m' !! r = Some (constructed U None))
    ∧ get_default_handler U m' = mret (r, m').
Proof.
  intros Hvalid. destruct (_default_handler m) as [r|] eqn:Hd.
  - exists r, m. rewrite (get_default_handler_installed U m r Hd).
    repeat split; try done.
  - eexists _, _. split; [by apply get_default_handler_fresh|].
    split; [|split; [done|split; [|split]]].
    + intros r [= <-]. simpl. rewrite lookup_insert_eq. eauto.
    + intros r0 self Hr0. simpl. rewrite lookup_insert_ne; [done|].
      intros <-. by rewrite fresh_unused in Hr0.
    + intros _. split; [apply fresh_unused|]. simpl. apply lookup_insert_eq.
    + by apply get_default_handler_installed.
Qed.

Lemma default_handler_built_once_witness :
  ∃ r m',
    outcome (get_default_handler latin1
               {| objects := ∅; _default_handler := None |}) = inr (r, m')
    ∧ objects m' !! r = Some (constructed latin1 None)
    ∧ get_default_handler latin1 m' = mret (r, m').
Proof.
  destruct (default_handler_built_once latin1
              {| objects := ∅; _default_handler := None |})
    as (r & m' & H1 & _ & _ & _ & H5 & H6).
  - intros r. discriminate.
  - exists r, m'. split; [exact H1|]. split; [|exact H6].
    apply (H5 eq_refl).
Defined.

(** X14. The default handler is one shared object: a replacement of the filler
    list made through the reference that [get_default_handler] returned is
    what every later [get_default_handler] caller gets and classifies
    with. *)
Theorem default_handler_shares_updates U m new_list :
  valid m →
  ∃ r m1 update m2 self',
    outcome (get_default_handler U m) = inr (r, m1)
    ∧ update_ignore_list_at U m1 r new_list = Some update
    ∧ outcome update = inr m2
    ∧ get_default_handler U m2 = mret (r, m2)
    ∧ objects m2 !! r = Some self'
    ∧ _ignore_list_lower self' = normalized U new_list
    ∧ ignore_list (_config self') = new_list
    ∧ ∀ transcript speaking state,
        should_ignore_interrupt_at U m2 r transcript speaking state
        = Some (should_ignore_interrupt U self' transcript speaking state).
Proof.
  intros Hvalid.
  assert (∃ r m1 self, outcome (get_default_handler U m) = inr (r, m1)
                       ∧ _default_handler m1 = Some r
                       ∧ objects m1 !! r = Some self) as (r & m1 & self & H1 & H2 & H3).
  { destruct (_default_handler m) as [r|] eqn:Hd.
    - destruct (Hvalid r Hd) as [self Hself]. exists r, m, self.
      by rewrite (get_default_handler_installed U m r Hd).
    - eexists _, _, _. split; [by apply get_default_handler_fresh|].
      split; [done|]. simpl. apply lookup_insert_eq. }
  exists r, m1. unfold update_ignore_list_at, should_ignore_interrupt_at.
  rewrite H3. eexists _, _, _. split; [done|]. split; [done|].
  unfold mbind, run_bind. rewrite update_outcome. cbn [outcome].
  split; [done|]. split; [by apply get_default_handler_installed|].
  cbn [objects]. rewrite lookup_insert_eq. done.
Qed.

Lemma default_handler_shares_updates_witness :
  ∃ r m1 update m2 self',
    outcome (get_default_handler latin1
               {| objects := ∅; _default_handler := None |}) = inr (r, m1)
    ∧ update_ignore_list_at latin1 m1 r [lit "yep"] = Some update
    ∧ outcome update = inr m2
    ∧ get_default_handler latin1 m2 = mret (r, m2)
    ∧ objects m2 !! r = Some self'
    ∧ _ignore_list_lower self' = normalized latin1 [lit "yep"]
    ∧ ignore_list (_config self') = [lit "yep"]
    ∧ ∀ transcript speaking state,
        should_ignore_interrupt_at latin1 m2 r transcript speaking state
        = Some (should_ignore_interrupt latin1 self' transcript speaking
                  state).
Proof.
  apply (default_handler_shares_updates latin1
           {| objects := ∅; _default_handler := None |} [lit "yep"]).
  intros r. discriminate.
Defined.

(** X15. [set_default_handler] installs the caller's own object, not a copy:
    [get_default_handler] then returns the caller's reference and builds
    nothing, the objects are untouched, and a later replacement of the
    filler list through the caller's reference is seen through
    [get_default_handler]. *)
Theorem installed_handler_is_shared U m handler self new_list :
  objects m !! handler = Some self →
  get_default_handler U (set_default_handler m handler)
  = mret (handler, set_default_handler m handler)
  ∧ objects (set_default_handler m handler) = objects m
  ∧ ∃ update m2 self',
      update_ignore_list_at U (set_default_handler m handler) handler new_list
      = Some update
      ∧ outcome update = inr m2
      ∧ outcome (get_default_handler U m2) = inr (handler, m2)
      ∧ objects m2 !! handler = Some self'
      ∧ _ignore_list_lower self' = normalized U new_list
      ∧ enabled (_config self') = enabled (_config self).
Proof.
  intros Hself. split; [done|]. split; [done|].
  unfold update_ignore_list_at. cbn [set_default_handler objects].
  rewrite Hself. eexists _, _, _. split; [done|].
  unfold mbind, run_bind. rewrite update_outcome. cbn [outcome].
  split; [done|]. split; [done|]. cbn [objects].
  rewrite lookup_insert_eq. done.
Qed.

Lemma installed_handler_is_shared_witness :
  get_default_handler latin1
    (set_default_handler
       {| objects := {[ 5%positive := constructed latin1 (Some disabled_config) ]};
          _default_handler := None |} 5%positive)
  = mret (5%positive,
          set_default_handler
            {| objects := {[ 5%positive :=
                               constructed latin1 (Some disabled_config) ]};
               _default_handler := None |} 5%positive).
Proof.
  apply (installed_handler_is_shared latin1
           {| objects := {[ 5%positive :=
                              constructed latin1 (Some disabled_config) ]};
              _default_handler := None |} 5%positive
           (constructed latin1 (Some disabled_config)) []).
  apply lookup_singleton_eq.
Defined.

(** ** The reason, exactly *)

(** X16. On a text transcript the reason is [empty_transcript] exactly when
    there is no token, [contains_semantic_content] exactly when some token
    is no filler, and otherwise names the speaking state; no flag of the
    configuration enters. *)
Theorem reason_exactly U self text speaking :
  (outcome (get_interrupt_reason U self (PyStr text) speaking)
   = inr empty_transcript
   ↔ outcome (_extract_words U (PyStr text)) = inr [])
  ∧ (outcome (get_interrupt_reason U self (PyStr text) speaking)
     = inr contains_semantic_content
     ↔ ∃ w, w ∈ findall (is_word U) (str_lower U text)
            ∧ w ∉ _ignore_list_lower self)
  ∧ (outcome (get_interrupt_reason U self (PyStr text) speaking)
     = inr passive_acknowledgement_ignored_agent_speaking
     ↔ findall (is_word U) (str_lower U text) ≠ []
       ∧ Forall (λ w, w ∈ _ignore_list_lower self)
           (findall (is_word U) (str_lower U text))
       ∧ speaking = true)
  ∧ (outcome (get_interrupt_reason U self (PyStr text) speaking)
     = inr passive_acknowledgement_agent_silent
     ↔ findall (is_word U) (str_lower U text) ≠ []
       ∧ Forall (λ w, w ∈ _ignore_list_lower self)
           (findall (is_word U) (str_lower U text))
       ∧ speaking = false).
Proof.
  rewrite explain_outcome, <- has_non_filler_true, <- has_non_filler_false.
  change (outcome (_extract_words U (PyStr text)))
    with (inr (findall (is_word U) (str_lower U text)) : exn + list str).
  generalize (findall (is_word U) (str_lower U text)). intros [|w ws].
  - repeat split; try done; by intros [? _].
  - generalize (_has_non_filler_words self (w :: ws)). intros n.
    destruct n, speaking; repeat split; try done;
      try (by intros (_ & ? & ?)).
Qed.

(** ** Case of the entries *)

(** X17. Upper-casing the entries of an ASCII filler list changes nothing: the
    derived set is the same, entries being lower-cased before they are
    kept. *)
Theorem uppercase_entries_same_set U self (new_list : list str) :
  ascii_faithful U → forallb ascii_text new_list = true →
  ∃ self1 self2,
    outcome (update_ignore_list U self new_list) = inr self1
    ∧ outcome (update_ignore_list U self (map (str_upper U) new_list))
      = inr self2
    ∧ _ignore_list_lower self1 = _ignore_list_lower self2.
Proof.
  intros HU Hl. do 2 eexists.
  split; [apply update_outcome|]. split; [apply update_outcome|].
  simpl. unfold normalized. rewrite map_map. f_equal.
  apply map_ext_in. intros w Hw. rewrite forallb_forall in Hl.
  by rewrite ascii_lower_of_upper by auto.
Qed.

Lemma uppercase_entries_same_set_witness :
  ∃ self1 self2,
    outcome (update_ignore_list latin1 (constructed latin1 None)
               (map lit ["yeah"; " Ok "]%string)) = inr self1
    ∧ outcome (update_ignore_list latin1 (constructed latin1 None)
                 (map (str_upper latin1) (map lit ["yeah"; " Ok "]%string)))
      = inr self2
    ∧ _ignore_list_lower self1 = _ignore_list_lower self2.
Proof.
  apply (uppercase_entries_same_set latin1 (constructed latin1 None)
           (map lit ["yeah"; " Ok "]%string));
    [apply latin1_faithful | reflexivity].
Defined.

(** ** The summary of the test log *)

Lemma count_passed_bounds (results : list (str * bool * str)) :
  (0 ≤ TestLog.count_passed results ≤ Z.of_nat (length results))%Z.
Proof.
  induction results as [|[[name result] details] results IH]; simpl; [lia|].
  destruct result; lia.
Qed.

Lemma count_passed_all (results : list (str * bool * str)) :
  TestLog.count_passed results = Z.of_nat (length results)
  ↔ Forall (λ r : str * bool * str, r.1.2 = true) results.
Proof.
  induction results as [|[[name result] details] results IH]; simpl.
  - split; [constructor | done].
  - pose proof (count_passed_bounds results). rewrite Forall_cons. simpl.
    destruct result; [rewrite <- IH; lia|]. split; [lia | by intros [? _]].
Qed.

Lemma log_failed_logs self results :
  TestLog.logs (TestLog.log_failed self results)
  = TestLog.logs self
    ++ omap (λ r : str * bool * str, if r.1.2 then None
                  else Some ([], TestLog.m_failed r.1.1 r.2)) results.
Proof.
  revert self. induction results as [|[[name result] details] results IH];
    intros self; simpl; [by rewrite app_nil_r|].
  rewrite IH. destruct result; simpl; [done|]. by rewrite <- app_assoc.
Qed.

(** X18. With no result recorded, [print_summary] of the main test file
    raises a division by zero after its first two lines, where the
    standalone one reports 0 of 0 at 0 percent; with a result recorded the
    two do the same, and neither raises. *)
Theorem summary_division_by_zero self :
  ((TestLog.print_summary self).2 = inl TestLog.ZeroDivisionError
   ↔ TestLog.test_results self = [])
  ∧ (TestLog.print_summary_standalone self).2 = inr tt
  ∧ (TestLog.test_results self = [] →
     TestLog.logs (TestLog.print_summary self).1
     = TestLog.logs self ++ [([], TestLog.m_blank); ([], TestLog.m_rule)]
     ∧ TestLog.logs (TestLog.print_summary_standalone self).1
       = TestLog.logs self
         ++ [([], TestLog.m_blank); ([], TestLog.m_rule);
             ([], TestLog.m_summary 0 0 0); ([], TestLog.m_rule)])
  ∧ (TestLog.test_results self ≠ [] →
     TestLog.print_summary self = TestLog.print_summary_standalone self).
Proof.
  unfold TestLog.print_summary, TestLog.print_summary_standalone.
  destruct self as [logs results]. cbn [TestLog.test_results TestLog.logs].
  destruct results as [|r results].
  - simpl. repeat split; try done.
    + by rewrite <- app_assoc.
    + by rewrite <- !app_assoc.
  - change (Z.of_nat (length (r :: results)) =? 0)%Z with false.
    cbn iota. split; [done|]. split; [done|]. split; [done|]. intros _.
    rewrite Z.max_r by (simpl; lia). by rewrite Z.div_1_r.
Qed.

Lemma summary_logs self :
  TestLog.logs (TestLog.print_summary_standalone self).1
  = TestLog.logs self
    ++ [([], TestLog.m_blank); ([], TestLog.m_rule);
        ([], TestLog.m_summary (TestLog.count_passed (TestLog.test_results self))
               (Z.of_nat (length (TestLog.test_results self)))
               (100 * TestLog.count_passed (TestLog.test_results self)
                / Z.max 1 (Z.of_nat (length (TestLog.test_results self))) / 1));
        ([], TestLog.m_rule)]
    ++ (if (TestLog.count_passed (TestLog.test_results self)
            <? Z.of_nat (length (TestLog.test_results self)))%Z
        then ([], TestLog.m_failed_tests)
             :: omap (λ r : str * bool * str,
                        if r.1.2 then None
                        else Some (([] : str), TestLog.m_failed r.1.1 r.2))
                  (TestLog.test_results self)
        else []).
Proof.
  unfold TestLog.print_summary_standalone, TestLog.summary_tail. cbn zeta.
  cbn [TestLog.log TestLog.test_results TestLog.logs].
  destruct (_ <? _)%Z; cbn [fst].
  - rewrite log_failed_logs. cbn [TestLog.log TestLog.logs TestLog.test_results].
    by rewrite <- !app_assoc.
  - cbn [TestLog.log TestLog.logs TestLog.test_results].
    by rewrite <- !app_assoc.
Qed.

Lemma count_passed_filter (results : list (str * bool * str)) :
  TestLog.count_passed results
  = Z.of_nat (length (List.filter (λ r : str * bool * str, r.1.2) results)).
Proof.
  induction results as [|[[name result] details] results IH]; [done|].
  cbn [TestLog.count_passed List.filter fst snd]. rewrite IH.
  destruct result; cbn [length]; lia.
Qed.

Lemma summary_same self :
  TestLog.test_results self ≠ [] →
  TestLog.print_summary self = TestLog.print_summary_standalone self.
Proof.
  unfold TestLog.print_summary, TestLog.print_summary_standalone.
  destruct self as [logs results]. cbn [TestLog.test_results TestLog.logs].
  destruct results as [|r results]; [done|]. intros _.
  change (Z.of_nat (length (r :: results)) =? 0)%Z with false. cbn iota.
  rewrite Z.max_r by (simpl; lia). by rewrite Z.div_1_r.
Qed.

Lemma percent_bounds (passed total : Z) :
  (0 ≤ passed ≤ total)%Z →
  (0 ≤ 100 * passed / Z.max 1 total ≤ 100)%Z
  ∧ ((1 ≤ total)%Z → (100 * passed / Z.max 1 total = 100 ↔ passed = total)%Z).
Proof.
  intros Hb. destruct (decide (total = 0%Z)) as [->|Hn].
  - assert (passed = 0%Z) as -> by lia. split; [done|lia].
  - rewrite Z.max_r by lia. split.
    + split; [apply Z.div_pos; lia|]. apply Z.div_le_upper_bound; lia.
    + intros _. split.
      * intros Hq. pose proof (Z.mul_div_le (100 * passed) total ltac:(lia)).
        lia.
      * intros ->. apply Z.div_mul. lia.
Qed.

Lemma failures_none (results : list (str * bool * str)) :
  Forall (λ r : str * bool * str, r.1.2 = true) results →
  omap (λ r : str * bool * str,
          if r.1.2 then None
          else Some (([] : str), TestLog.m_failed r.1.1 r.2)) results = [].
Proof.
  induction 1 as [|[[name result] details] results Hr _ IH]; [done|].
  simpl in *. by rewrite Hr.
Qed.

(** X19. The summary line of [print_summary] reports the number of recorded
    passes, the number of recorded results and the percentage of the first
    in the second, rounded down (0 when nothing is recorded, in the
    standalone file): it is the third of the lines the call appends, no other
    appended line is a summary, the percentage lies between 0 and 100 and,
    once a result is recorded, is 100 exactly when every recorded test
    passed; with a result recorded the main test file logs the same. *)
Theorem summary_percentage self :
  let results := TestLog.test_results self in
  let passed :=
    Z.of_nat (length (List.filter (λ r : str * bool * str, r.1.2) results)) in
  let total := Z.of_nat (length results) in
  let percent := (100 * passed / Z.max 1 total)%Z in
  (∃ failures,
     TestLog.logs (TestLog.print_summary_standalone self).1
     = TestLog.logs self
       ++ [([], TestLog.m_blank); ([], TestLog.m_rule);
           ([], TestLog.m_summary passed total percent);
           ([], TestLog.m_rule)]
       ++ failures
     ∧ (∀ level p t pc, (level, TestLog.m_summary p t pc) ∉ failures)
     ∧ (passed = total → failures = []))
  ∧ TestLog.text (TestLog.m_summary passed total percent)
    = lit "TEST SUMMARY: " ++ TestLog.decimal passed ++ lit "/"
      ++ TestLog.decimal total ++ lit " passed ("
      ++ TestLog.decimal percent ++ lit "%)"
  ∧ (0 ≤ passed ≤ total)%Z
  ∧ (0 ≤ percent ≤ 100)%Z
  ∧ (results = [] → percent = 0%Z)
  ∧ (results ≠ [] →
     (percent = 100%Z
      ↔ Forall (λ r : str * bool * str, r.1.2 = true) results)
     ∧ percent = (100 * passed / total)%Z
     ∧ TestLog.print_summary self = TestLog.print_summary_standalone self).
Proof.
  intros results passed total percent.
  pose proof (count_passed_bounds results) as Hb.
  pose proof (count_passed_filter results) as Hp.
  fold passed in Hp. fold total in Hb. rewrite Hp in Hb.
  destruct (percent_bounds passed total Hb) as [Hpc Hfull].
  split; [|split; [done|split; [done|split; [done|split]]]].
  - eexists. split; [|split].
    + rewrite summary_logs. fold results. rewrite Hp. fold total.
      rewrite Z.div_1_r. fold percent. reflexivity.
    + intros level p t pc Hin. destruct (_ <? _)%Z; [|by inversion Hin].
      apply elem_of_cons in Hin as [Hin|Hin]; [discriminate Hin|].
      apply list_elem_of_omap in Hin as (r & _ & Hr).
      by destruct (r.1.2).
    + intros ->. by rewrite Z.ltb_irrefl.
  - intros Hnil. subst percent passed total. by rewrite Hnil.
  - intros Hne.
    assert (1 ≤ total)%Z as Hn.
    { subst total. destruct results; [done|simpl; lia]. }
    split; [|split].
    + unfold percent. rewrite (Hfull Hn), <- Hp. apply count_passed_all.
    + subst percent. by rewrite Z.max_r by lia.
    + by apply summary_same.
Qed.

Lemma summary_percentage_witness :
  ([], lit "TEST SUMMARY: 2/3 passed (66%)")
  ∈ TestLog.lines
      (TestLog.print_summary_standalone
         {| TestLog.logs := [];
            TestLog.test_results :=
              [(lit "a", true, lit "x"); (lit "b", false, lit "y");
               (lit "c", true, lit "z")] |}).1.
Proof.
  destruct (summary_percentage
              {| TestLog.logs := [];
                 TestLog.test_results :=
                   [(lit "a", true, lit "x"); (lit "b", false, lit "y");
                    (lit "c", true, lit "z")] |})
    as [(failures & Hlogs & _) _].
  unfold TestLog.lines. rewrite Hlogs. rewrite !map_app.
  apply elem_of_app. right. apply elem_of_app. left.
  cbn [map]. rewrite !elem_of_cons. right. right. left.
  vm_compute. reflexivity.
Defined.

Lemma failure_lines_text (results : list (str * bool * str)) :
  map (λ entry : str * TestLog.message, (entry.1, TestLog.text entry.2))
    (omap (λ r : str * bool * str,
             if r.1.2 then None
             else Some (([] : str), TestLog.m_failed r.1.1 r.2)) results)
  = omap (λ r : str * bool * str,
            if r.1.2 then None
            else Some (([] : str),
                       [32; 32; 8226; 32]%N ++ r.1.1 ++ lit ": " ++ r.2))
      results.
Proof.
  induction results as [|[[n b] d] rs IH]; [done|].
  destruct b; [exact IH|]. exact (f_equal (cons _) IH).
Qed.

Lemma failure_lines_none (results : list (str * bool * str)) :
  omap (λ r : str * bool * str,
          if r.1.2 then None
          else Some (([] : str),
                     [32; 32; 8226; 32]%N ++ r.1.1 ++ lit ": " ++ r.2))
    results = []
  ↔ Forall (λ r : str * bool * str, r.1.2 = true) results.
Proof.
  induction results as [|[[n b] d] rs IH]; [by split; [constructor|]|].
  simpl. destruct b; simpl.
  - rewrite IH. split; [by constructor|by inversion 1].
  - split; [done|by inversion 1].
Qed.

(** X20. Under the summary, the failed tests are listed by their text:
    when a recorded test failed, the call appends "Failed tests:" and then,
    for each recorded failure in order, the bullet line made of its name, a
    colon and its details, and nothing when every recorded test passed.  A
    bullet line is appended exactly when it is the text of a recorded
    failure.  The text does not tell the name from the details: the name
    "a: b" with the details "c" gives the line of the name "a" with the
    details "b: c". *)
Theorem failed_tests_listed self :
  let results := TestLog.test_results self in
  let bullet (name details : str) : str :=
    [32; 32; 8226; 32]%N ++ name ++ lit ": " ++ details in
  let failures :=
    omap (λ r : str * bool * str,
            if r.1.2 then None else Some (([] : str), bullet r.1.1 r.2))
      results in
  (∃ summary,
     TestLog.lines (TestLog.print_summary_standalone self).1
     = TestLog.lines self
       ++ [([], []); ([], replicate 80 61%N); ([], summary);
           ([], replicate 80 61%N)]
       ++ (if bool_decide (failures = []) then []
           else ([], lit "Failed tests:") :: failures))
  ∧ (∀ line, ([], line) ∈ failures
             ↔ ∃ name details,
                 (name, false, details) ∈ results
                 ∧ line = bullet name details)
  ∧ (failures = []
     ↔ Forall (λ r : str * bool * str, r.1.2 = true) results)
  ∧ (∀ name details,
       TestLog.text (TestLog.m_failed name details) = bullet name details)
  ∧ bullet (lit "a: b") (lit "c") = bullet (lit "a") (lit "b: c")
  ∧ (results ≠ [] →
     TestLog.lines (TestLog.print_summary self).1
     = TestLog.lines (TestLog.print_summary_standalone self).1).
Proof.
  intros results bullet failures.
  pose proof (failure_lines_text results) as Hmap.
  pose proof (failure_lines_none results) as Hnone.
  split; [|split; [|split; [done|split; [done|split; [done|]]]]].
  - eexists. unfold TestLog.lines. rewrite summary_logs, !map_app.
    fold results. f_equal. cbn [map fst snd TestLog.text]. f_equal.
    case_bool_decide as Hf.
    + apply Hnone in Hf.
      assert ((TestLog.count_passed results <? Z.of_nat (length results))%Z
              = false) as ->; [|done].
      apply Z.ltb_ge. apply count_passed_all in Hf. lia.
    + assert ((TestLog.count_passed results <? Z.of_nat (length results))%Z
              = true) as ->.
      { apply Z.ltb_lt. pose proof (count_passed_bounds results).
        destruct (decide (TestLog.count_passed results
                          = Z.of_nat (length results))) as [Heq|]; [|lia].
        apply count_passed_all, Hnone in Heq. done. }
      exact (f_equal (cons _) Hmap).
  - intros line. subst failures. rewrite list_elem_of_omap. split.
    + intros ([[n b] d] & Hin & Heq). simpl in Heq.
      destruct b; [done|]. injection Heq as <-. by exists n, d.
    + intros (n & d & Hin & ->). by exists (n, false, d).
  - intros Hne. by rewrite summary_same.
Qed.

Lemma failed_tests_listed_witness :
  ∃ summary,
    TestLog.lines
      (TestLog.print_summary_standalone
         {| TestLog.logs := [];
            TestLog.test_results :=
              [(lit "a", true, lit "x"); (lit "b", false, lit "y: z");
               (lit "c", false, lit "w")] |}).1
    = [([], []); ([], replicate 80 61%N); ([], summary);
       ([], replicate 80 61%N); ([], lit "Failed tests:");
       ([], [32; 32; 8226; 32]%N ++ lit "b: y: z");
       ([], [32; 32; 8226; 32]%N ++ lit "c: w")].
Proof.
  destruct (failed_tests_listed
              {| TestLog.logs := [];
                 TestLog.test_results :=
                   [(lit "a", true, lit "x"); (lit "b", false, lit "y: z");
                    (lit "c", false, lit "w")] |})
    as [(summary & Hlines) _].
  exists summary. rewrite Hlines. reflexivity.
Defined.

